(** * whiskers: the connection pool and the result row

    A shallow embedding of [whiskers/ddbc_bindings.py] (class
    [_ConnectionPool]) and of [whiskers/row.py] (class [Row]), with the
    properties of the design document proved or refuted on it.

    Conventions of the embedding.
    - A Python [list] is a Rocq [list] in the same order: [append] adds at
      the end and [pop()] removes the last element.
    - A Python [dict] is an association list in insertion order.
    - A call that may raise returns a [result]; only exceptions derived from
      [Exception] are modelled, which are the ones [except Exception] catches.
    - [time.monotonic()] is an integer tick count handed to the operation that
      reads the clock.
    - The driver is external: whether [close()] or the statement-handle probe
      of a connection raises is a parameter of the pool section. *)

From Stdlib Require Import ZArith String Ascii Bool Lia List Sorted Permutation.
From Stdlib.Strings Require Import Byte.
From Equations Require Import Equations.
Import ListNotations.
Local Open Scope Z_scope.
Local Open Scope list_scope.

(** ** Exceptions and results *)

Inductive exn : Type :=
| DriverError
| TypeError (msg : string)
| IndexError (msg : string)
| AttributeError (msg : string)
| ConverterError.

Inductive result (A : Type) : Type :=
| Return (a : A)
| Raise (e : exn).
Arguments Return {A} a.
Arguments Raise {A} e.

(** ** Python containers *)

Definition inspect {A : Type} (a : A) : {b : A | a = b} := exist _ a eq_refl.

(** [l.pop()]: the last element and the list without it. *)
Fixpoint list_pop {A : Type} (l : list A) : option (list A * A) :=
  match l with
  | [] => None
  | x :: r =>
      match list_pop r with
      | None => Some ([], x)
      | Some (r', y) => Some (x :: r', y)
      end
  end.

Lemma list_pop_snoc {A : Type} (l : list A) (x : A) :
  list_pop (l ++ [x]) = Some (l, x).
Proof.
  induction l as [|a l IH]; simpl; [reflexivity|].
  rewrite IH. reflexivity.
Qed.

Lemma list_pop_Some {A : Type} (l r : list A) (x : A) :
  list_pop l = Some (r, x) -> l = r ++ [x].
Proof.
  revert r x. induction l as [|a l IH]; intros r x H; simpl in H; [discriminate|].
  destruct (list_pop l) as [[r' y]|] eqn:E.
  - injection H as <- <-. rewrite (IH _ _ eq_refl). reflexivity.
  - injection H as <- <-. destruct l as [|b l]; [reflexivity|].
    simpl in E. destruct (list_pop l) as [[? ?]|]; discriminate.
Qed.

Lemma list_pop_length {A : Type} (l r : list A) (x : A) :
  list_pop l = Some (r, x) -> (List.length r < List.length l)%nat.
Proof.
  intros H. rewrite (list_pop_Some _ _ _ H), length_app. simpl. lia.
Qed.

Definition dict (V : Type) : Type := list (string * V).

(** [d.get(k)] *)
Fixpoint dict_get {V : Type} (k : string) (d : dict V) : option V :=
  match d with
  | [] => None
  | (k', v) :: d' => if String.eqb k k' then Some v else dict_get k d'
  end.

(** [d[k] = v]: an existing key keeps its place, a new key goes last. *)
Fixpoint dict_set {V : Type} (k : string) (v : V) (d : dict V) : dict V :=
  match d with
  | [] => [(k, v)]
  | (k', v') :: d' =>
      if String.eqb k k' then (k', v) :: d' else (k', v') :: dict_set k v d'
  end.

(** [d[k]] on a [defaultdict(list)]: a missing key is inserted with []. *)
Definition defaultdict_getitem {V : Type} (k : string) (d : dict (list V))
  : list V * dict (list V) :=
  match dict_get k d with
  | Some l => (l, d)
  | None => ([], dict_set k [] d)
  end.

Lemma dict_get_set_same {V : Type} (k : string) (v : V) (d : dict V) :
  dict_get k (dict_set k v d) = Some v.
Proof.
  induction d as [|[k' v'] d IH]; simpl.
  - rewrite String.eqb_refl. reflexivity.
  - destruct (String.eqb k k') eqn:E; simpl; rewrite E; [reflexivity | exact IH].
Qed.

Lemma dict_get_set_other {V : Type} (k k' : string) (v : V) (d : dict V) :
  k' <> k -> dict_get k' (dict_set k v d) = dict_get k' d.
Proof.
  intros Hne. apply String.eqb_neq in Hne.
  induction d as [|[k0 v0] d IH]; simpl.
  - rewrite Hne. reflexivity.
  - destruct (String.eqb k k0) eqn:E; simpl.
    + apply String.eqb_eq in E. subst k0. rewrite Hne. reflexivity.
    + rewrite IH. reflexivity.
Qed.

Lemma dict_set_get_same {V : Type} (k : string) (v : V) (d : dict V) :
  dict_get k d = Some v -> dict_set k v d = d.
Proof.
  induction d as [|[k' v'] d IH]; simpl; [discriminate|].
  destruct (String.eqb k k') eqn:E.
  - intros [= ->]. reflexivity.
  - intros H. rewrite (IH H). reflexivity.
Qed.

Module Pool.

(** A connection is an opaque handle, known by its identity. *)
Definition Connection : Type := nat.

(** A pooled entry is the tuple [(conn, returned_at)]. *)
Definition entry : Type := (Connection * Z)%type.

(** What a call of the pool does to the outside, in order. *)
Inductive event : Type :=
| EAcquire
| ERelease
| EProbe (c : Connection)
| EClose (c : Connection).

Lemma event_eq_dec (a b : event) : {a = b} + {a <> b}.
Proof. decide equality; apply Nat.eq_dec. Defined.

Record ConnectionPool : Type := mkPool {
  _pools : dict (list entry);
  _enabled : bool;
  _max_size : Z;
  _idle_timeout : Z
}.

(** [_ConnectionPool.__init__] *)
Definition init : ConnectionPool :=
  {| _pools := []; _enabled := false; _max_size := 100; _idle_timeout := 600 |}.

Definition set_pools (self : ConnectionPool) (p : dict (list entry)) : ConnectionPool :=
  {| _pools := p; _enabled := _enabled self;
     _max_size := _max_size self; _idle_timeout := _idle_timeout self |}.

(** The list the pool holds for a key; a key that is not there holds none. *)
Definition pool_of (self : ConnectionPool) (conn_str : string) : list entry :=
  match dict_get conn_str (_pools self) with
  | Some l => l
  | None => []
  end.

(** Every connection the pool holds, key after key, oldest first. *)
Definition pooled_conns (self : ConnectionPool) : list Connection :=
  flat_map (fun kv => map fst (snd kv)) (_pools self).

(** The lock discipline of a trace, read from left to right with [held]
    telling whether the lock is held at its start. *)
Definition is_driver_call (e : event) : bool :=
  match e with
  | EProbe _ | EClose _ => true
  | EAcquire | ERelease => false
  end.

(** No driver call is made while the lock is held. *)
Fixpoint calls_outside_lock (held : bool) (tr : list event) : bool :=
  match tr with
  | [] => true
  | EAcquire :: tr' => calls_outside_lock true tr'
  | ERelease :: tr' => calls_outside_lock false tr'
  | (EProbe _ | EClose _) :: tr' => negb held && calls_outside_lock held tr'
  end.

(** Every driver call is made while the lock is held. *)
Fixpoint calls_under_lock (held : bool) (tr : list event) : bool :=
  match tr with
  | [] => true
  | EAcquire :: tr' => calls_under_lock true tr'
  | ERelease :: tr' => calls_under_lock false tr'
  | (EProbe _ | EClose _) :: tr' => held && calls_under_lock held tr'
  end.

Section Driver.

Variable close_raises : Connection -> bool.
Variable probe_raises : Connection -> bool.

(** [conn.close()] *)
Definition conn_close (conn : Connection) : result unit * list event :=
  (if close_raises conn then Raise DriverError else Return tt, [EClose conn]).

(** [conn.alloc_statement_handle().free()] *)
Definition conn_probe (conn : Connection) : result unit * list event :=
  (if probe_raises conn then Raise DriverError else Return tt, [EProbe conn]).

(** [try: conn.close()  except Exception: pass] *)
Definition close_suppressed (conn : Connection) : list event :=
  match conn_close conn with
  | (Return _, tr) => tr
  | (Raise _, tr) => tr
  end.

(** [_ConnectionPool.enable] *)
Definition enable (self : ConnectionPool) (max_size idle_timeout : Z) : ConnectionPool :=
  {| _pools := _pools self; _enabled := true;
     _max_size := max_size; _idle_timeout := idle_timeout |}.

(** [_ConnectionPool.disable] *)
Definition disable (self : ConnectionPool) : ConnectionPool * list event :=
  ({| _pools := []; _enabled := false;
      _max_size := _max_size self; _idle_timeout := _idle_timeout self |},
   EAcquire
     :: flat_map (fun kv => flat_map (fun e => close_suppressed (fst e)) (snd kv))
                 (_pools self)
     ++ [ERelease]).

(** The [while pool:] loop of [get]: the value returned, what is left of the
    list, and the driver calls made. *)
Equations? get_loop (now idle_timeout : Z) (pool : list entry)
  : option Connection * list entry * list event by wf (List.length pool) lt :=
  get_loop now idle_timeout pool with inspect (list_pop pool) := {
    | exist _ None _ => (None, pool, []);
    | exist _ (Some (rest, (conn, returned_at))) Hpop =>
        if now - returned_at <? idle_timeout then
          match conn_probe conn with
          | (Return _, tr) => (Some conn, rest, tr)
          | (Raise _, tr) =>
              let '(r, rest', tr') := get_loop now idle_timeout rest in
              (r, rest', tr ++ close_suppressed conn ++ tr')
          end
        else
          let '(r, rest', tr') := get_loop now idle_timeout rest in
          (r, rest', close_suppressed conn ++ tr') }.
Proof.
  all: apply (list_pop_length _ _ _ Hpop).
Qed.

(** [_ConnectionPool.get] *)
Definition get (self : ConnectionPool) (now : Z) (conn_str : string)
  : option Connection * ConnectionPool * list event :=
  if negb (_enabled self) then (None, self, [])
  else
    match dict_get conn_str (_pools self) with
    | None => (None, self, [EAcquire; ERelease])
    | Some pool =>
        let '(r, pool', tr) := get_loop now (_idle_timeout self) pool in
        (r, set_pools self (dict_set conn_str pool' (_pools self)),
         EAcquire :: tr ++ [ERelease])
    end.

(** [_ConnectionPool.put] *)
Definition put (self : ConnectionPool) (now : Z) (conn_str : string) (conn : Connection)
  : result unit * ConnectionPool * list event :=
  if negb (_enabled self) then
    let '(r, tr) := conn_close conn in (r, self, tr)
  else
    let '(pool, pools1) := defaultdict_getitem conn_str (_pools self) in
    if Z.of_nat (List.length pool) <? _max_size self then
      (Return tt,
       set_pools self (dict_set conn_str (pool ++ [(conn, now)]) pools1),
       [EAcquire; ERelease])
    else
      let '(r, tr) := conn_close conn in
      (r, set_pools self pools1, EAcquire :: tr ++ [ERelease]).

(** One call on the pool, as a caller makes it. *)
Inductive op : Type :=
| OpEnable (max_size idle_timeout : Z)
| OpDisable
| OpGet (now : Z) (conn_str : string)
| OpPut (now : Z) (conn_str : string) (conn : Connection).

Definition is_get_or_put (o : op) : bool :=
  match o with
  | OpGet _ _ | OpPut _ _ _ => true
  | OpEnable _ _ | OpDisable => false
  end.

(** The pool after one call; what the call returns or raises goes to the
    caller and leaves the pool as the call left it. *)
Definition step (self : ConnectionPool) (o : op) : ConnectionPool :=
  match o with
  | OpEnable max_size idle_timeout => enable self max_size idle_timeout
  | OpDisable => fst (disable self)
  | OpGet now conn_str => snd (fst (get self now conn_str))
  | OpPut now conn_str conn => snd (fst (put self now conn_str conn))
  end.

Definition run (self : ConnectionPool) (ops : list op) : ConnectionPool :=
  fold_left step ops self.

(** *** Unfolding the loop of [get] *)

Lemma get_loop_nil (now idle_timeout : Z) :
  get_loop now idle_timeout [] = (None, [], []).
Proof. reflexivity. Qed.

Lemma get_loop_snoc (now idle_timeout : Z) (l : list entry)
      (conn : Connection) (returned_at : Z) :
  get_loop now idle_timeout (l ++ [(conn, returned_at)]) =
    if now - returned_at <? idle_timeout then
      if probe_raises conn then
        let '(r, rest', tr') := get_loop now idle_timeout l in
        (r, rest', EProbe conn :: EClose conn :: tr')
      else (Some conn, l, [EProbe conn])
    else
      let '(r, rest', tr') := get_loop now idle_timeout l in
      (r, rest', EClose conn :: tr').
Proof.
  remember (l ++ [(conn, returned_at)]) as pool eqn:Hp.
  funelim (get_loop now idle_timeout pool).
  all: match goal with
       | Hpop : list_pop (?l0 ++ [?x]) = ?rhs |- _ =>
           assert (Hx : Some (l0, x) = rhs)
             by (rewrite <- Hpop; symmetry; apply list_pop_snoc)
       end.
  2: discriminate.
  repeat match goal with
         | H : @eq (sigma _) _ _ |- _ => clear H
         | H : _ = get_loop _ _ _ |- _ => clear H
         | H : forall _, _ |- _ => clear H
         | H : list_pop _ = _ |- _ => clear H
         end.
  injection Hx as <- <- <-.
  unfold conn_probe, close_suppressed, conn_close.
  repeat match goal with
         | |- context [_ - _ <? _] => destruct (_ - _ <? _)
         | |- context [probe_raises ?c] => destruct (probe_raises c)
         | |- context [close_raises ?c] => destruct (close_raises c)
         end; reflexivity.
Qed.

Lemma get_loop_app (now idle_timeout : Z) (l1 l2 : list entry) :
  get_loop now idle_timeout (l1 ++ l2) =
    match get_loop now idle_timeout l2 with
    | (Some c, rest2, tr2) => (Some c, l1 ++ rest2, tr2)
    | (None, _, tr2) =>
        let '(r1, rest1, tr1) := get_loop now idle_timeout l1 in
        (r1, rest1, tr2 ++ tr1)
    end.
Proof.
  induction l2 as [|[c t] l2 IH] using rev_ind.
  - rewrite app_nil_r, get_loop_nil.
    destruct (get_loop now idle_timeout l1) as [[r1 rest1] tr1]. reflexivity.
  - rewrite app_assoc, !get_loop_snoc, IH.
    destruct (get_loop now idle_timeout l2) as [[[c2|] rest2] tr2];
      destruct (now - t <? idle_timeout); destruct (probe_raises c);
      try reflexivity;
      destruct (get_loop now idle_timeout l1) as [[r1 rest1] tr1]; reflexivity.
Qed.

(** What the loop hands out is a fresh entry that passed the probe, and what
    it leaves is the part of the list below that entry. *)
Lemma get_loop_spec (now idle_timeout : Z) (pool : list entry) :
  match get_loop now idle_timeout pool with
  | (Some c, rest, _) =>
      exists t suffix, pool = rest ++ (c, t) :: suffix /\
                       now - t < idle_timeout /\ probe_raises c = false
  | (None, rest, _) => rest = []
  end.
Proof.
  induction pool as [|[c t] l IH] using rev_ind.
  - rewrite get_loop_nil. reflexivity.
  - rewrite get_loop_snoc.
    destruct (now - t <? idle_timeout) eqn:Hf.
    + destruct (probe_raises c) eqn:Hp.
      * destruct (get_loop now idle_timeout l) as [[[c'|] rest] tr]; [|exact IH].
        destruct IH as (t' & suffix & -> & Hfresh & Hok).
        exists t', (suffix ++ [(c, t)]). rewrite <- app_assoc. auto.
      * exists t, []. apply Z.ltb_lt in Hf. auto.
    + destruct (get_loop now idle_timeout l) as [[[c'|] rest] tr]; [|exact IH].
      destruct IH as (t' & suffix & -> & Hfresh & Hok).
      exists t', (suffix ++ [(c, t)]). rewrite <- app_assoc. auto.
Qed.

Lemma get_loop_length (now idle_timeout : Z) (pool : list entry) :
  (List.length (snd (fst (get_loop now idle_timeout pool))) <= List.length pool)%nat.
Proof.
  pose proof (get_loop_spec now idle_timeout pool) as H.
  destruct (get_loop now idle_timeout pool) as [[[c|] rest] tr]; simpl.
  - destruct H as (t & suffix & -> & _). rewrite length_app. lia.
  - subst rest. simpl. lia.
Qed.

(** *** [get] and [put] seen through [pool_of] *)

Lemma pool_of_set_same (self : ConnectionPool) (k : string) (l : list entry)
      (p : dict (list entry)) :
  pool_of (set_pools self (dict_set k l p)) k = l.
Proof. unfold pool_of; simpl. rewrite dict_get_set_same. reflexivity. Qed.

Lemma pool_of_set_other (self : ConnectionPool) (k k' : string) (l : list entry) :
  k' <> k ->
  pool_of (set_pools self (dict_set k l (_pools self))) k' = pool_of self k'.
Proof.
  intros Hne. unfold pool_of; simpl. rewrite dict_get_set_other by exact Hne.
  reflexivity.
Qed.

Lemma get_enabled (self : ConnectionPool) (now : Z) (k : string) :
  _enabled self = true ->
  exists self',
    get self now k =
      (fst (fst (get_loop now (_idle_timeout self) (pool_of self k))), self',
       EAcquire :: snd (get_loop now (_idle_timeout self) (pool_of self k))
                ++ [ERelease]) /\
    pool_of self' k = snd (fst (get_loop now (_idle_timeout self) (pool_of self k))) /\
    (forall k', k' <> k -> pool_of self' k' = pool_of self k') /\
    _enabled self' = true /\
    _max_size self' = _max_size self /\
    _idle_timeout self' = _idle_timeout self.
Proof.
  intros He. unfold get. rewrite He. simpl.
  destruct (dict_get k (_pools self)) as [pool|] eqn:E.
  - assert (Hp : pool_of self k = pool) by (unfold pool_of; rewrite E; reflexivity).
    rewrite Hp.
    destruct (get_loop now (_idle_timeout self) pool) as [[r rest] tr]. simpl.
    eexists. split; [reflexivity|].
    split; [apply pool_of_set_same|].
    split; [intros k' Hne; apply pool_of_set_other; exact Hne|].
    simpl. auto.
  - assert (Hp : pool_of self k = []) by (unfold pool_of; rewrite E; reflexivity).
    rewrite Hp, get_loop_nil. simpl. exists self.
    split; [reflexivity|]. auto.
Qed.

Lemma put_enabled (self : ConnectionPool) (now : Z) (k : string) (c : Connection) :
  _enabled self = true ->
  exists self',
    put self now k c =
      (if Z.of_nat (List.length (pool_of self k)) <? _max_size self
       then (Return tt, self', [EAcquire; ERelease])
       else (fst (conn_close c), self', [EAcquire; EClose c; ERelease])) /\
    pool_of self' k =
      (if Z.of_nat (List.length (pool_of self k)) <? _max_size self
       then pool_of self k ++ [(c, now)] else pool_of self k) /\
    (forall k', k' <> k -> pool_of self' k' = pool_of self k') /\
    _enabled self' = true /\
    _max_size self' = _max_size self /\
    _idle_timeout self' = _idle_timeout self.
Proof.
  intros He. unfold put, defaultdict_getitem. rewrite He. simpl.
  destruct (dict_get k (_pools self)) as [pool|] eqn:E; simpl.
  - assert (Hp : pool_of self k = pool) by (unfold pool_of; rewrite E; reflexivity).
    rewrite Hp.
    destruct (Z.of_nat (List.length pool) <? _max_size self).
    + eexists. split; [reflexivity|].
      split; [apply pool_of_set_same|].
      split; [intros k' Hne; apply pool_of_set_other; exact Hne|].
      simpl. auto.
    + eexists. split; [reflexivity|].
      unfold pool_of; simpl. rewrite E. auto.
  - assert (Hp : pool_of self k = []) by (unfold pool_of; rewrite E; reflexivity).
    rewrite Hp. simpl.
    destruct (0 <? _max_size self).
    + eexists. split; [reflexivity|].
      split; [apply pool_of_set_same|].
      split.
      * intros k' Hne. unfold pool_of; simpl.
        rewrite !dict_get_set_other by exact Hne. reflexivity.
      * simpl. auto.
    + eexists. split; [reflexivity|].
      unfold pool_of; simpl. rewrite dict_get_set_same.
      split; [reflexivity|].
      split.
      * intros k' Hne. rewrite dict_get_set_other by exact Hne. reflexivity.
      * auto.
Qed.

Lemma nth_error_middle {A : Type} (l1 l2 : list A) (x : A) :
  nth_error (l1 ++ x :: l2) (List.length l1) = Some x.
Proof.
  rewrite nth_error_app2 by lia. rewrite Nat.sub_diag. reflexivity.
Qed.

(** C2. An entry whose idle time [now - t] has reached the idle timeout in
    force at the time of the [get] is never the entry handed out: whatever
    [get] returns sits at another position and is fresh. If a more recent
    entry is handed out the stale one stays pooled; otherwise the search
    reaches it, closes it without a probe (whether or not [close] raises) and
    goes on with the older entries of the key. *)
Theorem stale_entry_discarded
  (self : ConnectionPool) (now : Z) (k : string)
  (older : list entry) (conn : Connection) (t : Z) (newer : list entry)
  (r : option Connection) (self' : ConnectionPool) (tr : list event) :
  _enabled self = true ->
  pool_of self k = older ++ (conn, t) :: newer ->
  _idle_timeout self <= now - t ->
  get self now k = (r, self', tr) ->
  (forall c, r = Some c ->
     exists t',
       nth_error (pool_of self k) (List.length (pool_of self' k)) = Some (c, t') /\
       now - t' < _idle_timeout self /\
       List.length (pool_of self' k) <> List.length older) /\
  match get_loop now (_idle_timeout self) newer with
  | (Some c, rest, tr2) =>
      r = Some c /\
      pool_of self' k = older ++ (conn, t) :: rest /\
      tr = EAcquire :: tr2 ++ [ERelease]
  | (None, _, tr2) =>
      r = fst (fst (get_loop now (_idle_timeout self) older)) /\
      pool_of self' k = snd (fst (get_loop now (_idle_timeout self) older)) /\
      tr = EAcquire :: tr2 ++ EClose conn
                    :: snd (get_loop now (_idle_timeout self) older) ++ [ERelease]
  end.
Proof.
  intros He Hpool Hstale Hget.
  destruct (get_enabled self now k He) as (s1 & Hg & Hrest & _).
  rewrite Hget in Hg. injection Hg as Hr Hs Htr. subst s1.
  split.
  - intros c Hc.
    pose proof (get_loop_spec now (_idle_timeout self) (pool_of self k)) as Hspec.
    destruct (get_loop now (_idle_timeout self) (pool_of self k))
      as [[r0 rest0] tr0] eqn:E.
    simpl in Hr, Hrest. subst r0. rewrite Hc in Hspec.
    destruct Hspec as (t' & suffix & Hsplit & Hfresh & _).
    exists t'. rewrite Hrest.
    assert (Hnth : nth_error (pool_of self k) (List.length rest0) = Some (c, t'))
      by (rewrite Hsplit at 1; apply nth_error_middle).
    repeat split; [exact Hnth | exact Hfresh |].
    intros Hlen. rewrite Hlen, Hpool, nth_error_middle in Hnth.
    injection Hnth as _ Ht. lia.
  - rewrite Hpool in Hr, Hrest, Htr.
    change (older ++ (conn, t) :: newer)
      with (older ++ [(conn, t)] ++ newer) in Hr, Hrest, Htr.
    rewrite app_assoc, get_loop_app, get_loop_snoc in Hr, Hrest, Htr.
    apply Z.ltb_ge in Hstale. rewrite Hstale in Hr, Hrest, Htr.
    destruct (get_loop now (_idle_timeout self) newer) as [[[c2|] rest2] tr2].
    + simpl in Hr, Hrest, Htr. rewrite <- app_assoc in Hrest. auto.
    + destruct (get_loop now (_idle_timeout self) older) as [[r1 rest1] tr1].
      simpl in Hr, Hrest, Htr. simpl. rewrite <- app_assoc in Htr. auto.
Qed.

(** C3. After [put(k, A)] then [put(k, B)], both stored, B's entry is the
    last of the key's list. The next [get(k)] makes its first driver call on
    B, and hands out B, leaving A pooled, when B is fresh and its probe
    passes. *)
Theorem lifo_reuse
  (self s1 s2 s3 : ConnectionPool) (k : string) (A B : Connection)
  (tA tB now : Z) (r1 r2 : result unit) (tr1 tr2 tr : list event)
  (r : option Connection) :
  _enabled self = true ->
  Z.of_nat (List.length (pool_of self k)) + 1 < _max_size self ->
  put self tA k A = (r1, s1, tr1) ->
  put s1 tB k B = (r2, s2, tr2) ->
  get s2 now k = (r, s3, tr) ->
  pool_of s2 k = pool_of self k ++ [(A, tA); (B, tB)] /\
  (exists e tr', tr = EAcquire :: e :: tr' /\ (e = EProbe B \/ e = EClose B)) /\
  (now - tB < _idle_timeout self -> probe_raises B = false ->
   r = Some B /\
   pool_of s3 k = pool_of self k ++ [(A, tA)] /\
   tr = [EAcquire; EProbe B; ERelease]).
Proof.
  intros He Hroom HputA HputB Hget.
  destruct (put_enabled self tA k A He) as (x1 & Hp1 & Hl1 & _ & He1 & Hm1 & Ht1).
  assert (Hlt1 : (Z.of_nat (List.length (pool_of self k)) <? _max_size self) = true)
    by (apply Z.ltb_lt; lia).
  rewrite Hlt1 in Hp1, Hl1. rewrite HputA in Hp1. injection Hp1 as _ <- _.
  destruct (put_enabled s1 tB k B He1) as (x2 & Hp2 & Hl2 & _ & He2 & Hm2 & Ht2).
  assert (Hlt2 : (Z.of_nat (List.length (pool_of s1 k)) <? _max_size s1) = true).
  { apply Z.ltb_lt. rewrite Hl1, length_app, Hm1. simpl. lia. }
  rewrite Hlt2 in Hp2, Hl2. rewrite HputB in Hp2. injection Hp2 as _ <- _.
  assert (Hs2 : pool_of s2 k = (pool_of self k ++ [(A, tA)]) ++ [(B, tB)])
    by (rewrite Hl2, Hl1; reflexivity).
  destruct (get_enabled s2 now k He2) as (x3 & Hg & Hrest & _).
  rewrite Hget in Hg. injection Hg as Hr <- Htr.
  rewrite Hs2, get_loop_snoc, Ht2, Ht1 in Hr, Hrest, Htr.
  split; [rewrite Hs2, <- app_assoc; reflexivity|].
  split.
  - destruct (now - tB <? _idle_timeout self).
    + destruct (probe_raises B).
      * destruct (get_loop now (_idle_timeout self) (pool_of self k ++ [(A, tA)]))
          as [[r0 rest0] tr0].
        simpl in Htr. eauto.
      * simpl in Htr. eauto.
    + destruct (get_loop now (_idle_timeout self) (pool_of self k ++ [(A, tA)]))
        as [[r0 rest0] tr0].
      simpl in Htr. eauto.
  - intros Hfresh Hok. apply Z.ltb_lt in Hfresh.
    rewrite Hfresh, Hok in Hr, Hrest, Htr. simpl in Hr, Hrest, Htr. auto.
Qed.

(** *** A disabled pool *)

Lemma get_disabled (self : ConnectionPool) (now : Z) (k : string) :
  _enabled self = false -> get self now k = (None, self, []).
Proof. intros He. unfold get. rewrite He. reflexivity. Qed.

Lemma put_disabled (self : ConnectionPool) (now : Z) (k : string) (c : Connection) :
  _enabled self = false ->
  put self now k c = (fst (conn_close c), self, [EClose c]).
Proof. intros He. unfold put. rewrite He. reflexivity. Qed.

Lemma step_disabled (self : ConnectionPool) (o : op) :
  _enabled self = false -> is_get_or_put o = true -> step self o = self.
Proof.
  intros He Ho. destruct o; try discriminate; simpl.
  - rewrite get_disabled by exact He. reflexivity.
  - rewrite put_disabled by exact He. reflexivity.
Qed.

Lemma run_disabled (self : ConnectionPool) (ops : list op) :
  _enabled self = false -> run self (filter is_get_or_put ops) = self.
Proof.
  intros He. unfold run. induction ops as [|o ops IH]; simpl; [reflexivity|].
  destruct (is_get_or_put o) eqn:Ho; [|exact IH].
  simpl. rewrite step_disabled by assumption. exact IH.
Qed.

Lemma close_suppressed_trace (c : Connection) : close_suppressed c = [EClose c].
Proof. unfold close_suppressed, conn_close. destruct (close_raises c); reflexivity. Qed.

Lemma disable_trace (self : ConnectionPool) :
  snd (disable self) = EAcquire :: map EClose (pooled_conns self) ++ [ERelease].
Proof.
  unfold disable, pooled_conns; simpl. do 2 f_equal.
  induction (_pools self) as [|[k conns] d IH]; simpl; [reflexivity|].
  rewrite map_app, IH. f_equal.
  induction conns as [|[c t] conns IHc]; simpl; [reflexivity|].
  rewrite close_suppressed_trace, IHc. reflexivity.
Qed.

Lemma count_closes (l : list Connection) (c : Connection) :
  count_occ event_eq_dec (EAcquire :: map EClose l ++ [ERelease]) (EClose c) =
  count_occ Nat.eq_dec l c.
Proof.
  rewrite count_occ_cons_neq by discriminate.
  rewrite count_occ_app. simpl.
  destruct (event_eq_dec ERelease (EClose c)) as [E|_]; [discriminate|].
  rewrite Nat.add_0_r.
  induction l as [|x l IH]; simpl; [reflexivity|].
  destruct (event_eq_dec (EClose x) (EClose c)) as [E|E];
    destruct (Nat.eq_dec x c) as [E'|E'];
    try (rewrite IH; reflexivity);
    try (injection E as E; contradiction);
    try (subst x; contradiction).
Qed.

(** C5. [disable] leaves no key and no entry, calls [close] once for each
    entry that was pooled, in order, so a connection is closed as many times
    as entries held it (once, when it was pooled once); none of these calls
    can make [disable] fail. Afterwards every [get] returns none and every
    [put] only closes the connection it is given, and any run of [get] and
    [put] calls leaves the pool as [disable] left it. *)
Theorem disable_closes_everything (self : ConnectionPool) :
  let s' := fst (disable self) in
  let tr := snd (disable self) in
  _pools s' = [] /\
  (forall k, pool_of s' k = []) /\
  tr = EAcquire :: map EClose (pooled_conns self) ++ [ERelease] /\
  (forall c, count_occ event_eq_dec tr (EClose c) =
             count_occ Nat.eq_dec (pooled_conns self) c) /\
  (forall now k, get s' now k = (None, s', [])) /\
  (forall now k c, put s' now k c = (fst (conn_close c), s', [EClose c])) /\
  (forall ops, run s' (filter is_get_or_put ops) = s').
Proof.
  intros s' tr. subst s' tr.
  split; [reflexivity|].
  split; [reflexivity|].
  split; [apply disable_trace|].
  split; [intros c; rewrite disable_trace; apply count_closes|].
  split; [intros now k; apply get_disabled; reflexivity|].
  split; [intros now k c; apply put_disabled; reflexivity|].
  intros ops. apply run_disabled. reflexivity.
Qed.

(** *** The size of a key's list along a run *)

Definition bounded (M : Z) (self : ConnectionPool) : Prop :=
  (_enabled self = true -> _max_size self <= M) /\
  (forall k, Z.of_nat (List.length (pool_of self k)) <= M).

Lemma step_bounded (M : Z) (self : ConnectionPool) (o : op) :
  0 <= M ->
  (forall m t, o = OpEnable m t -> m <= M) ->
  bounded M self -> bounded M (step self o).
Proof.
  intros HM Ho [Hmax Hsize]. destruct o as [m t| |now k|now k c]; simpl.
  - split; [intros _; simpl; eapply Ho; reflexivity | exact Hsize].
  - split; [discriminate | intros k; simpl; lia].
  - destruct (_enabled self) eqn:He.
    + destruct (get_enabled self now k He) as (s1 & Hg & Hrest & Hoth & He1 & Hm1 & _).
      rewrite Hg. simpl. split.
      * intros _. rewrite Hm1. auto.
      * intros k'. destruct (String.eqb_spec k' k) as [->|Hne].
        -- rewrite Hrest.
           pose proof (get_loop_length now (_idle_timeout self) (pool_of self k)).
           specialize (Hsize k). lia.
        -- rewrite Hoth by exact Hne. apply Hsize.
    + rewrite get_disabled by exact He. simpl. split; [rewrite He; discriminate | exact Hsize].
  - destruct (_enabled self) eqn:He.
    + destruct (put_enabled self now k c He) as (s1 & Hp & Hl & Hoth & He1 & Hm1 & _).
      assert (Hs : snd (fst (put self now k c)) = s1).
      { rewrite Hp. destruct (_ <? _); reflexivity. }
      rewrite Hs. split.
      * intros _. rewrite Hm1. auto.
      * intros k'. destruct (String.eqb_spec k' k) as [->|Hne].
        -- rewrite Hl.
           destruct (Z.of_nat (List.length (pool_of self k)) <? _max_size self) eqn:Hlt.
           ++ apply Z.ltb_lt in Hlt. specialize (Hmax eq_refl).
              rewrite length_app. simpl. lia.
           ++ apply Hsize.
        -- rewrite Hoth by exact Hne. apply Hsize.
    + rewrite put_disabled by exact He. simpl. split; [rewrite He; discriminate | exact Hsize].
Qed.

Lemma run_bounded (M : Z) (ops : list op) (self : ConnectionPool) :
  0 <= M ->
  (forall m t, In (OpEnable m t) ops -> m <= M) ->
  bounded M self -> bounded M (run self ops).
Proof.
  intros HM. unfold run. revert self.
  induction ops as [|o ops IH]; intros self Hops Hb; simpl; [exact Hb|].
  apply IH.
  - intros m t Hin. apply (Hops m t). right. exact Hin.
  - apply step_bounded; [exact HM | | exact Hb].
    intros m t ->. apply (Hops m t). left. reflexivity.
Qed.

(** C1, as the code has it. Along every sequence of calls from a new pool the
    number of entries of a key never exceeds the largest [max_size] that
    [enable] was given so far; and on an enabled pool a [put] to a key whose
    entry count has reached the current [max_size] closes the incoming
    connection and stores nothing. *)
Theorem size_bounded_by_largest_max
  (ops : list op) (M : Z) (k : string) (now : Z) (c : Connection) :
  0 <= M ->
  (forall m t, In (OpEnable m t) ops -> m <= M) ->
  Z.of_nat (List.length (pool_of (run init ops) k)) <= M /\
  (_enabled (run init ops) = true ->
   _max_size (run init ops) <= Z.of_nat (List.length (pool_of (run init ops) k)) ->
   exists self',
     put (run init ops) now k c =
       (fst (conn_close c), self', [EAcquire; EClose c; ERelease]) /\
     forall k', pool_of self' k' = pool_of (run init ops) k').
Proof.
  intros HM Hops. split.
  - apply (run_bounded M ops init HM Hops).
    split; [discriminate | intros k'; simpl; lia].
  - intros He Hfull.
    destruct (put_enabled (run init ops) now k c He) as (s1 & Hp & Hl & Hoth & _).
    apply Z.ltb_ge in Hfull. rewrite Hfull in Hp, Hl.
    exists s1. split; [exact Hp|].
    intros k'. destruct (String.eqb_spec k' k) as [->|Hne]; [exact Hl | auto].
Qed.

(** *** The lock and the driver calls *)

Lemma get_loop_calls (now idle_timeout : Z) (pool : list entry) :
  forallb is_driver_call (snd (get_loop now idle_timeout pool)) = true.
Proof.
  induction pool as [|[c t] l IH] using rev_ind.
  - reflexivity.
  - rewrite get_loop_snoc.
    destruct (now - t <? idle_timeout); [destruct (probe_raises c)|];
      try reflexivity;
      destruct (get_loop now idle_timeout l) as [[r rest] tr]; exact IH.
Qed.

Lemma calls_under_lock_body (body : list event) :
  forallb is_driver_call body = true ->
  calls_under_lock true (body ++ [ERelease]) = true.
Proof.
  induction body as [|e body IH]; simpl; [reflexivity|].
  destruct e; simpl; try discriminate; exact IH.
Qed.

(** C10, as the code has it. [get] and [put] on an enabled pool take the
    lock once on entry and give it back once on exit, and every probe and
    every [close] they make runs in between, with the lock held. Only a
    disabled [put] closes the connection without the lock, and a disabled
    [get] touches neither the lock nor a connection. *)
Theorem driver_calls_under_lock
  (self : ConnectionPool) (now : Z) (k : string) (c : Connection) :
  (if _enabled self
   then exists body,
          snd (get self now k) = EAcquire :: body ++ [ERelease] /\
          forallb is_driver_call body = true
   else snd (get self now k) = []) /\
  (if _enabled self
   then exists body,
          snd (put self now k c) = EAcquire :: body ++ [ERelease] /\
          forallb is_driver_call body = true
   else snd (put self now k c) = [EClose c]) /\
  calls_under_lock false (snd (get self now k)) = true /\
  calls_under_lock false (snd (put self now k c)) = _enabled self.
Proof.
  destruct (_enabled self) eqn:He.
  - destruct (get_enabled self now k He) as (s1 & Hg & _).
    destruct (put_enabled self now k c He) as (s2 & Hp & _).
    rewrite Hg. simpl.
    assert (Hput : exists body,
               snd (put self now k c) = EAcquire :: body ++ [ERelease] /\
               forallb is_driver_call body = true).
    { rewrite Hp. destruct (_ <? _); simpl.
      - exists []. split; reflexivity.
      - exists [EClose c]. split; reflexivity. }
    split; [eexists; split; [reflexivity | apply get_loop_calls]|].
    split; [exact Hput|].
    split; [apply calls_under_lock_body, get_loop_calls|].
    destruct Hput as (body & -> & Hb). simpl.
    apply calls_under_lock_body, Hb.
  - rewrite get_disabled, put_disabled by exact He. simpl.
    repeat split.
Qed.

End Driver.

(** *** Concrete drivers and runs *)

Definition never_raises (c : Connection) : bool := false.
Definition always_raises (c : Connection) : bool := true.

(** The pool of a key holds no more entries than the [max_size] in force. *)
Definition within_current_max (self : ConnectionPool) (k : string) : Prop :=
  Z.of_nat (List.length (pool_of self k)) <= _max_size self.

(** [enable(2, 600)], two connections returned under the key, then
    [enable(1, 600)]. *)
Definition lowered_run : list op :=
  [OpEnable 2 600; OpPut 0 "db"%string 1%nat; OpPut 1 "db"%string 2%nat;
   OpEnable 1 600].

(** C1 fails as stated: [enable] with a smaller [max_size] trims nothing, so
    the key holds two entries while the configured [max_size] is one. *)
Lemma lowered_max_size_is_exceeded :
  _enabled (run never_raises never_raises init lowered_run) = true /\
  _max_size (run never_raises never_raises init lowered_run) = 1 /\
  pool_of (run never_raises never_raises init lowered_run) "db"%string
    = [(1%nat, 0); (2%nat, 1)] /\
  ~ within_current_max (run never_raises never_raises init lowered_run) "db"%string.
Proof.
  repeat split. unfold within_current_max. vm_compute. intros H. apply H. reflexivity.
Qed.

Lemma size_bounded_by_largest_max_witness :
  Z.of_nat (List.length
    (pool_of (run never_raises never_raises init
                  [OpEnable 2 600; OpPut 0 "db"%string 1%nat;
                   OpPut 1 "db"%string 2%nat]) "db"%string)) <= 2.
Proof.
  refine (proj1 (size_bounded_by_largest_max never_raises never_raises
                   [OpEnable 2 600; OpPut 0 "db"%string 1%nat;
                    OpPut 1 "db"%string 2%nat] 2 "db"%string 2 3%nat _ _)).
  - lia.
  - simpl. intros m t [H|[H|[H|[]]]]; inversion H; lia.
Defined.

(** Two connections come back at times 0 and 5 while the idle timeout is
    600; [enable] then lowers it to 10. *)
Definition aged_pool : ConnectionPool :=
  run never_raises never_raises init
      [OpEnable 100 600; OpPut 0 "db"%string 1%nat; OpPut 5 "db"%string 2%nat;
       OpEnable 100 10].

(** At time 20 both entries are stale under the timeout now in force, though
    fresh under the one they were stored with: each is closed without a
    probe and [get] returns none. *)
Example aged_pool_get :
  pool_of aged_pool "db"%string = [(1%nat, 0); (2%nat, 5)] /\
  get never_raises never_raises aged_pool 20 "db"%string
    = (None, set_pools aged_pool [("db"%string, [])],
       [EAcquire; EClose 2%nat; EClose 1%nat; ERelease]).
Proof. split; reflexivity. Qed.

Lemma stale_entry_discarded_witness :
  (forall c, None = Some c ->
     exists t',
       nth_error (pool_of aged_pool "db"%string)
         (List.length (pool_of (set_pools aged_pool [("db"%string, [])]) "db"%string))
         = Some (c, t') /\
       20 - t' < _idle_timeout aged_pool /\
       List.length (pool_of (set_pools aged_pool [("db"%string, [])]) "db"%string)
         <> List.length [(1%nat, 0)]) /\
  match get_loop never_raises never_raises 20 (_idle_timeout aged_pool) [] with
  | (Some c, rest, tr2) =>
      None = Some c /\
      pool_of (set_pools aged_pool [("db"%string, [])]) "db"%string
        = [(1%nat, 0)] ++ (2%nat, 5) :: rest /\
      [EAcquire; EClose 2%nat; EClose 1%nat; ERelease] = EAcquire :: tr2 ++ [ERelease]
  | (None, _, tr2) =>
      None
        = fst (fst (get_loop never_raises never_raises 20
                      (_idle_timeout aged_pool) [(1%nat, 0)])) /\
      pool_of (set_pools aged_pool [("db"%string, [])]) "db"%string
        = snd (fst (get_loop never_raises never_raises 20
                      (_idle_timeout aged_pool) [(1%nat, 0)])) /\
      [EAcquire; EClose 2%nat; EClose 1%nat; ERelease]
        = EAcquire :: tr2 ++ EClose 2%nat
            :: snd (get_loop never_raises never_raises 20
                      (_idle_timeout aged_pool) [(1%nat, 0)]) ++ [ERelease]
  end.
Proof.
  apply (stale_entry_discarded never_raises never_raises aged_pool 20 "db"%string
           [(1%nat, 0)] 2%nat 5 []).
  - reflexivity.
  - reflexivity.
  - simpl. lia.
  - reflexivity.
Defined.

(** [enable(5, 600)], then connection 1 and connection 2 returned under one
    key at times 0 and 1. *)
Definition two_returned : ConnectionPool :=
  run never_raises never_raises init
      [OpEnable 5 600; OpPut 0 "db"%string 1%nat; OpPut 1 "db"%string 2%nat].

Lemma lifo_reuse_witness :
  pool_of two_returned "db"%string = [(1%nat, 0); (2%nat, 1)] /\
  fst (fst (get never_raises never_raises two_returned 2 "db"%string)) = Some 2%nat /\
  pool_of (snd (fst (get never_raises never_raises two_returned 2 "db"%string)))
          "db"%string = [(1%nat, 0)] /\
  snd (get never_raises never_raises two_returned 2 "db"%string)
    = [EAcquire; EProbe 2%nat; ERelease].
Proof.
  pose proof (lifo_reuse never_raises never_raises (enable init 5 600)
                (snd (fst (put never_raises (enable init 5 600) 0 "db"%string 1%nat)))
                two_returned
                (snd (fst (get never_raises never_raises two_returned 2 "db"%string)))
                "db"%string 1%nat 2%nat 0 1 2 (Return tt) (Return tt)
                [EAcquire; ERelease] [EAcquire; ERelease]
                (snd (get never_raises never_raises two_returned 2 "db"%string))
                (fst (fst (get never_raises never_raises two_returned 2 "db"%string)))
                eq_refl ltac:(simpl; lia) eq_refl eq_refl eq_refl) as H.
  destruct H as (Hs2 & _ & Hget).
  specialize (Hget ltac:(simpl; lia) eq_refl).
  destruct Hget as (Hr & Hs3 & Htr).
  split; [exact Hs2|].
  split; [exact Hr|].
  split; [exact Hs3 | exact Htr].
Defined.

(** An enabled pool holding one fresh connection. *)
Definition one_pooled : ConnectionPool :=
  run never_raises never_raises init [OpEnable 2 600; OpPut 0 "db"%string 1%nat].

(** C10 fails as stated: [get] probes the popped connection between taking
    the lock and giving it back. *)
Lemma probe_runs_under_lock :
  snd (get never_raises never_raises one_pooled 2 "db"%string)
    = [EAcquire; EProbe 1%nat; ERelease] /\
  calls_outside_lock false (snd (get never_raises never_raises one_pooled 2 "db"%string))
    = false.
Proof. split; reflexivity. Qed.

(** An enabled pool of capacity one that is full. *)
Definition full_pool : ConnectionPool :=
  run always_raises never_raises init [OpEnable 1 600; OpPut 0 "db"%string 1%nat].

(** C4 fails in [put]: its two [conn.close()] calls stand outside any
    [try], so a [close] that raises reaches the caller of [put], both when
    pooling is disabled and when the key is full. [get] does swallow it: the
    stale entry below is closed, [close] raises, and [get] returns none. *)
Theorem put_propagates_close_failure :
  put always_raises init 0 "db"%string 7%nat
    = (Raise DriverError, init, [EClose 7%nat]) /\
  put always_raises full_pool 1 "db"%string 7%nat
    = (Raise DriverError, full_pool, [EAcquire; EClose 7%nat; ERelease]) /\
  get always_raises never_raises full_pool 1000 "db"%string
    = (None, set_pools full_pool [("db"%string, [])],
       [EAcquire; EClose 1%nat; ERelease]).
Proof. repeat split. Qed.

End Pool.

Module Rows.

(** ** Values, sequences, descriptors *)

(** A column value: [None], an [int], a [str] (code points below 256) or a
    [bytes] object. *)
Inductive value : Type :=
| VNone
| VInt (n : Z)
| VStr (s : string)
| VBytes (b : list byte).

Lemma value_eq_dec (v w : value) : {v = w} + {v <> w}.
Proof.
  decide equality;
    [apply Z.eq_dec | apply string_dec | apply list_eq_dec, byte_eq_dec].
Defined.

(** [v == w] on column values. *)
Definition value_eqb (v w : value) : bool :=
  if value_eq_dec v w then true else false.

(** [l1 == l2] on two lists, or on two tuples: same length, equal items. *)
Fixpoint items_eqb (l1 l2 : list value) : bool :=
  match l1, l2 with
  | [], [] => true
  | v :: l1', w :: l2' => value_eqb v w && items_eqb l1' l2'
  | _, _ => false
  end.

(** What [Row._values] holds: the tuple handed over by the fetch, or a list. *)
Inductive pyseq : Type :=
| PyTuple (items : list value)
| PyList (items : list value).

(** [list(s)] *)
Definition to_list (s : pyseq) : list value :=
  match s with
  | PyTuple items => items
  | PyList items => items
  end.

(** [s1 == s2]: a tuple and a list are never equal. *)
Definition pyseq_eqb (s1 s2 : pyseq) : bool :=
  match s1, s2 with
  | PyTuple l1, PyTuple l2 => items_eqb l1 l2
  | PyList l1, PyList l2 => items_eqb l1 l2
  | _, _ => false
  end.

(** [s[index]], with Python's negative indices. *)
Definition seq_getitem (s : pyseq) (index : Z) : result value :=
  let n := Z.of_nat (List.length (to_list s)) in
  let i := if index <? 0 then index + n else index in
  if (0 <=? i) && (i <? n) then
    match nth_error (to_list s) (Z.to_nat i) with
    | Some v => Return v
    | None => Raise (IndexError "index out of range")
    end
  else Raise (IndexError "index out of range").

(** [values[i] = x] on a list, for an index of the list. *)
Fixpoint list_setitem (values : list value) (i : nat) (x : value) : list value :=
  match values, i with
  | [], _ => []
  | _ :: values', O => x :: values'
  | v :: values', S i' => v :: list_setitem values' i' x
  end.

(** A column descriptor; [type_code] is [desc[1]]. *)
Record descriptor : Type := mkDesc {
  name : string;
  type_code : Z
}.

(** An output converter: it returns a value or raises. *)
Definition converter : Type := value -> result value.

(** The cursor, as far as [Row] looks at it: [lowercase] is [None] when the
    object has no such attribute, and [get_output_converter] is
    [cursor.connection.get_output_converter]. *)
Record Cursor : Type := mkCursor {
  lowercase : option bool;
  get_output_converter : Z -> option converter
}.

Record Row : Type := mkRow {
  _values : pyseq;
  _column_map : option (dict Z);
  _cursor_ref : Cursor
}.

(** [str.lower()] on one code point below 256. The code points it changes
    are the capital letters A-Z (65-90) and U+00C0-U+00DE (192-222) without
    the multiplication sign U+00D7 (215); each goes to the code point 32
    above it. *)
Definition lower_char (a : ascii) : ascii :=
  let n := nat_of_ascii a in
  if ((Nat.leb 65 n && Nat.leb n 90)
      || (Nat.leb 192 n && Nat.leb n 222 && negb (Nat.eqb n 215)))%bool
  then ascii_of_nat (n + 32) else a.

(** [s.lower()] *)
Fixpoint lower (s : string) : string :=
  match s with
  | EmptyString => EmptyString
  | String a s' => String (lower_char a) (lower s')
  end.

(** [s.encode('utf-16-le')] for code points below 256: two bytes each, the
    low one first. *)
Fixpoint encode_utf16le (s : string) : list byte :=
  match s with
  | EmptyString => []
  | String a s' => byte_of_ascii a :: x00 :: encode_utf16le s'
  end.

Definition is_str_or_bytes (v : value) : bool :=
  match v with
  | VStr _ | VBytes _ => true
  | VNone | VInt _ => false
  end.

(** ** The methods of [Row] *)

(** [Row.__init__]; the description is not kept. *)
Definition __init__ (cursor : Cursor) (description : option (list (option descriptor)))
           (values : pyseq) (column_map : option (dict Z)) : Row :=
  {| _values := values; _column_map := column_map; _cursor_ref := cursor |}.

Section Constants.

(** [ConstantsDDBC.SQL_WVARCHAR.value], from [whiskers.constants]. *)
Variable SQL_WVARCHAR : Z.

(** The converter chosen for a value of a column of type [sql_type]. *)
Definition find_converter (cursor : Cursor) (sql_type : Z) (v : value) : option converter :=
  match get_output_converter cursor sql_type with
  | Some f => Some f
  | None =>
      if is_str_or_bytes v then get_output_converter cursor SQL_WVARCHAR else None
  end.

(** The body of the [try]: the value to write at the position, or the
    exception of the converter. *)
Definition call_converter (f : converter) (v : value) : result value :=
  match v with
  | VStr s => f (VBytes (encode_utf16le s))
  | _ => f v
  end.

(** One turn of the [for] loop, at position [i]. *)
Definition convert_at (cursor : Cursor) (values : list value) (i : nat)
           (v : value) (desc : option descriptor) : list value :=
  match desc, v with
  | None, _ => values
  | _, VNone => values
  | Some d, _ =>
      match find_converter cursor (type_code d) v with
      | None => values
      | Some f =>
          match call_converter f v with
          | Return v' => list_setitem values i v'
          | Raise _ => values
          end
      end
  end.

(** [for i, (value, desc) in enumerate(zip(values, description))], from
    position [i] on; [values] is the list being rewritten in place. *)
Fixpoint convert_loop (cursor : Cursor) (i : nat)
         (description : list (option descriptor)) (values : list value) : list value :=
  match description with
  | [] => values
  | desc :: description' =>
      match nth_error values i with
      | None => values
      | Some v =>
          convert_loop cursor (S i) description' (convert_at cursor values i v desc)
      end
  end.

(** [Row._apply_output_converters] *)
Definition _apply_output_converters (self : Row) (cursor : Cursor)
           (description : option (list (option descriptor))) : Row :=
  match description with
  | None | Some [] => self
  | Some descs =>
      {| _values := PyList (convert_loop cursor 0 descs (to_list (_values self)));
         _column_map := _column_map self;
         _cursor_ref := _cursor_ref self |}
  end.

End Constants.

(** [Row.__getitem__] *)
Definition __getitem__ (self : Row) (index : Z) : result value :=
  seq_getitem (_values self) index.

(** [Row.__len__] *)
Definition __len__ (self : Row) : nat := List.length (to_list (_values self)).

(** [hasattr(cursor, 'lowercase') and cursor.lowercase] *)
Definition lowercase_on (cursor : Cursor) : bool :=
  match lowercase cursor with
  | Some b => b
  | None => false
  end.

Definition no_attribute (name : string) : exn :=
  AttributeError ("Row has no attribute '" ++ name ++ "'")%string.

(** The loop [for col_name in column_map] of [__getattr__]: the position of
    the first key whose lower-case form is [name_lower]. *)
Fixpoint scan_lower (name_lower : string) (column_map : dict Z) : option Z :=
  match column_map with
  | [] => None
  | (col_name, pos) :: column_map' =>
      if String.eqb (lower col_name) name_lower then Some pos
      else scan_lower name_lower column_map'
  end.

(** [name in column_map], with [column_map[name]] when it is. *)
Definition exact_match (column_map : option (dict Z)) (name : string) : option Z :=
  match column_map with
  | None => None
  | Some m => dict_get name m
  end.

(** [Row.__getattr__] *)
Definition __getattr__ (self : Row) (name : string) : result value :=
  match exact_match (_column_map self) name with
  | Some pos => seq_getitem (_values self) pos
  | None =>
      if lowercase_on (_cursor_ref self) then
        match _column_map self with
        | None => Raise (TypeError "'NoneType' object is not iterable")
        | Some m =>
            match scan_lower (lower name) m with
            | Some pos => seq_getitem (_values self) pos
            | None => Raise (no_attribute name)
            end
        end
      else Raise (no_attribute name)
  end.

(** What [__eq__] is compared with. *)
Inductive pyobj : Type :=
| OList (items : list value)
| ORow (r : Row)
| OTuple (items : list value)
| OValue (v : value).

(** What [__eq__] answers. *)
Inductive eq_answer : Type :=
| Answer (b : bool)
| NotImplemented.

(** [object.__eq__]: true on the object itself, and no answer otherwise. *)
Definition object_eq (same_object : bool) : eq_answer :=
  if same_object then Answer true else NotImplemented.

(** [Row.__eq__]; what reaches [super().__eq__] is not a [Row], so it is not
    [self]. *)
Definition __eq__ (self : Row) (other : pyobj) : eq_answer :=
  match other with
  | OList items => Answer (items_eqb (to_list (_values self)) items)
  | ORow r => Answer (pyseq_eqb (_values self) (_values r))
  | OTuple _ | OValue _ => object_eq false
  end.

(** [row == other]: when [__eq__] gives no answer, and the other side, a
    tuple or a column value, gives none either, identity decides. *)
Definition equals (self : Row) (other : pyobj) : bool :=
  match __eq__ self other with
  | Answer b => b
  | NotImplemented => false
  end.

(** ** Properties of [Row] *)

Lemma value_eqb_eq (v w : value) : value_eqb v w = true <-> v = w.
Proof.
  unfold value_eqb. destruct (value_eq_dec v w) as [E|E]; split; intros H;
    try reflexivity; try assumption; try discriminate; contradiction.
Qed.

Lemma items_eqb_eq (l1 l2 : list value) : items_eqb l1 l2 = true <-> l1 = l2.
Proof.
  revert l2. induction l1 as [|v l1 IH]; intros [|w l2]; simpl;
    try (split; [reflexivity | reflexivity]);
    try (split; intros H; discriminate).
  rewrite andb_true_iff, value_eqb_eq, IH. split.
  - intros [-> ->]. reflexivity.
  - intros [= -> ->]. auto.
Qed.

Lemma items_eqb_refl (l : list value) : items_eqb l l = true.
Proof. apply items_eqb_eq. reflexivity. Qed.

(** *** Name-based access *)

(** The case-folded scan stops at the first key, in the order of the map,
    whose lower-case form is the one looked for. *)
Lemma scan_lower_first (name_lower : string) (m : dict Z) (pos : Z) :
  scan_lower name_lower m = Some pos <->
  exists m1 col m2,
    m = m1 ++ (col, pos) :: m2 /\ lower col = name_lower /\
    Forall (fun kv => lower (fst kv) <> name_lower) m1.
Proof.
  induction m as [|[c p] m IH]; simpl.
  - split; [discriminate|]. intros (m1 & col & m2 & H & _).
    destruct m1; discriminate.
  - destruct (String.eqb_spec (lower c) name_lower) as [E|E].
    + split.
      * intros [= ->]. exists [], c, m. auto.
      * intros (m1 & col & m2 & H & Hcol & Hall).
        destruct m1 as [|[c1 p1] m1]; simpl in H.
        -- injection H as _ -> _. reflexivity.
        -- injection H as -> _ _. inversion Hall; subst. simpl in *. contradiction.
    + rewrite IH. split.
      * intros (m1 & col & m2 & -> & Hcol & Hall).
        exists ((c, p) :: m1), col, m2. repeat split; auto.
      * intros (m1 & col & m2 & H & Hcol & Hall).
        destruct m1 as [|[c1 p1] m1]; simpl in H.
        -- injection H as -> _ _. contradiction.
        -- injection H as _ _ ->. inversion Hall; subst.
           exists m1, col, m2. auto.
Qed.

Lemma scan_lower_none (name_lower : string) (m : dict Z) :
  scan_lower name_lower m = None <->
  Forall (fun kv => lower (fst kv) <> name_lower) m.
Proof.
  induction m as [|[c p] m IH]; simpl.
  - split; auto.
  - destruct (String.eqb_spec (lower c) name_lower) as [E|E].
    + split; [discriminate|]. intros H. inversion H; subst. simpl in *. contradiction.
    + rewrite IH. split; [intros H; constructor; auto | intros H; inversion H; auto].
Qed.

(** With a column map, [__getattr__] resolves a name in two stages: the
    exact name first, then, for a case-insensitive cursor, the first key that matches
    once both are put in lower case, and [AttributeError] otherwise. *)
Lemma getattr_with_column_map (self : Row) (m : dict Z) (name : string) :
  _column_map self = Some m ->
  (forall pos, dict_get name m = Some pos ->
     __getattr__ self name = seq_getitem (_values self) pos) /\
  (forall pos, dict_get name m = None -> lowercase_on (_cursor_ref self) = true ->
     scan_lower (lower name) m = Some pos ->
     __getattr__ self name = seq_getitem (_values self) pos) /\
  (dict_get name m = None -> lowercase_on (_cursor_ref self) = true ->
     scan_lower (lower name) m = None ->
     __getattr__ self name = Raise (no_attribute name)) /\
  (dict_get name m = None -> lowercase_on (_cursor_ref self) = false ->
     __getattr__ self name = Raise (no_attribute name)).
Proof.
  intros Hm. unfold __getattr__, exact_match. rewrite Hm.
  repeat split.
  - intros pos ->. reflexivity.
  - intros pos -> -> ->. reflexivity.
  - intros -> -> ->. reflexivity.
  - intros -> ->. reflexivity.
Qed.

Definition plain_cursor (lowercase : option bool) : Cursor :=
  {| lowercase := lowercase; get_output_converter := fun _ => None |}.

(** The column map [{Name: 0}] of the design document. *)
Example getattr_case_insensitive :
  let row lc := __init__ (plain_cursor lc) None (PyTuple [VInt 7])
                         (Some [("Name"%string, 0)]) in
  __getattr__ (row (Some true)) "name" = Return (VInt 7) /\
  __getattr__ (row (Some true)) "Name" = Return (VInt 7) /\
  __getattr__ (row (Some false)) "name"
    = Raise (AttributeError "Row has no attribute 'name'") /\
  __getattr__ (row None) "name"
    = Raise (AttributeError "Row has no attribute 'name'").
Proof. repeat split. Qed.

(** A row built without a column map, on a case-insensitive cursor. *)
Definition unmapped_row : Row :=
  __init__ (plain_cursor (Some true)) None (PyTuple [VInt 7]) None.

(** C6 fails without a column map: the first test guards [column_map is not
    None], the case-folded scan does not, so on a case-insensitive cursor
    the scan iterates over [None] and the access ends in [TypeError], where
    the same row on a case-sensitive cursor ends in [AttributeError]. *)
Theorem getattr_without_column_map :
  __getattr__ unmapped_row "name"
    = Raise (TypeError "'NoneType' object is not iterable") /\
  __getattr__ (__init__ (plain_cursor (Some false)) None (PyTuple [VInt 7]) None) "name"
    = Raise (AttributeError "Row has no attribute 'name'").
Proof. split; reflexivity. Qed.

(** *** Equality *)

(** The row of the design document: values [(1, "x", None)] under the column
    map [{a: 0, b: 1, c: 2}]. *)
Definition sample_row : Row :=
  __init__ (plain_cursor None) None (PyTuple [VInt 1; VStr "x"; VNone])
           (Some [("a"%string, 0); ("b"%string, 1); ("c"%string, 2)]).

Lemma pyseq_eqb_eq (s1 s2 : pyseq) : pyseq_eqb s1 s2 = true <-> s1 = s2.
Proof.
  destruct s1 as [l1|l1], s2 as [l2|l2]; simpl;
    try rewrite items_eqb_eq;
    split; intros H; try discriminate; congruence.
Qed.

(** C7 fails as stated: [__eq__] tests [isinstance(other, list)], so the
    tuple of the row's own values, a plain ordered sequence of the same
    values, takes the default branch and compares unequal. *)
Lemma row_differs_from_its_tuple :
  _values sample_row = PyTuple [VInt 1; VStr "x"; VNone] /\
  __eq__ sample_row (OTuple [VInt 1; VStr "x"; VNone]) = NotImplemented /\
  equals sample_row (OTuple [VInt 1; VStr "x"; VNone]) = false.
Proof. repeat split. Qed.

(** C7, as the code has it. A row equals a list exactly when the list has
    the row's values, item by item, so it equals the list of its own values;
    it equals another row exactly when the two underlying sequences are
    equal, which takes the same kind of sequence, tuple or list, and the same
    items; against anything else, a tuple of the same values included,
    [__eq__] gives no answer and [==] falls back to identity, which is false.
    The row [(1, "x", None)] equals the list [[1, "x", None]]. *)
Theorem row_equals_list_or_row (self : Row) :
  (forall items, equals self (OList items) = true <-> to_list (_values self) = items) /\
  equals self (OList (to_list (_values self))) = true /\
  (forall r, equals self (ORow r) = true <-> _values self = _values r) /\
  (forall items, __eq__ self (OTuple items) = NotImplemented /\
                 equals self (OTuple items) = false) /\
  (forall v, __eq__ self (OValue v) = NotImplemented /\
             equals self (OValue v) = false) /\
  equals sample_row (OList [VInt 1; VStr "x"; VNone]) = true.
Proof.
  split; [intros items; unfold equals; simpl; apply items_eqb_eq|].
  split; [unfold equals; simpl; apply items_eqb_refl|].
  split; [intros r; unfold equals; simpl; apply pyseq_eqb_eq|].
  repeat split.
Qed.

(** The other accesses of the same example. *)
Example sample_row_access :
  __getitem__ sample_row 0 = Return (VInt 1) /\
  __getattr__ sample_row "b" = Return (VStr "x") /\
  __getattr__ sample_row "c" = Return VNone /\
  to_list (_values sample_row) = [VInt 1; VStr "x"; VNone].
Proof. repeat split. Qed.

(** *** Output conversion *)

Lemma list_setitem_length (values : list value) (i : nat) (x : value) :
  List.length (list_setitem values i x) = List.length values.
Proof.
  revert i. induction values as [|v values IH]; intros [|i]; simpl; auto.
Qed.

Lemma nth_error_setitem_same (values : list value) (i : nat) (x v : value) :
  nth_error values i = Some v -> nth_error (list_setitem values i x) i = Some x.
Proof.
  revert i. induction values as [|w values IH]; intros [|i]; simpl;
    try discriminate; auto.
Qed.

Lemma nth_error_setitem_other (values : list value) (i j : nat) (x : value) :
  i <> j -> nth_error (list_setitem values i x) j = nth_error values j.
Proof.
  revert i j. induction values as [|w values IH]; intros [|i] [|j] Hne; simpl;
    try reflexivity; try contradiction.
  apply IH. intros ->. apply Hne. reflexivity.
Qed.

Lemma list_setitem_unchanged (values : list value) (i : nat) (v : value) :
  nth_error values i = Some v -> list_setitem values i v = values.
Proof.
  revert i. induction values as [|w values IH]; intros [|i]; simpl;
    try discriminate.
  - intros [= ->]. reflexivity.
  - intros H. rewrite (IH _ H). reflexivity.
Qed.

Section Conversion.

Variable SQL_WVARCHAR : Z.

(** The value found at a position after the loop has passed it. *)
Definition outcome (cursor : Cursor) (v : value) (desc : option descriptor) : value :=
  match desc, v with
  | None, _ => v
  | _, VNone => v
  | Some d, _ =>
      match find_converter SQL_WVARCHAR cursor (type_code d) v with
      | None => v
      | Some f =>
          match call_converter f v with
          | Return v' => v'
          | Raise _ => v
          end
      end
  end.

Lemma convert_at_outcome (cursor : Cursor) (values : list value) (i : nat)
      (v : value) (desc : option descriptor) :
  nth_error values i = Some v ->
  convert_at SQL_WVARCHAR cursor values i v desc
    = list_setitem values i (outcome cursor v desc).
Proof.
  intros Hv. unfold convert_at, outcome.
  pose proof (list_setitem_unchanged values i v Hv) as Hsame.
  destruct desc as [d|]; [|symmetry; exact Hsame].
  destruct v; try (symmetry; exact Hsame);
    (destruct (find_converter SQL_WVARCHAR cursor (type_code d) _) as [f|];
     [|symmetry; exact Hsame]);
    (destruct (call_converter f _); [reflexivity | symmetry; exact Hsame]).
Qed.

Lemma convert_loop_length (cursor : Cursor) (descs : list (option descriptor))
      (i : nat) (values : list value) :
  List.length (convert_loop SQL_WVARCHAR cursor i descs values) = List.length values.
Proof.
  revert i values. induction descs as [|d descs IH]; intros i values; simpl;
    [reflexivity|].
  destruct (nth_error values i) as [v|] eqn:Hv; [|reflexivity].
  rewrite IH, (convert_at_outcome _ _ _ _ _ Hv). apply list_setitem_length.
Qed.

Lemma convert_loop_nth (cursor : Cursor) (descs : list (option descriptor))
      (i : nat) (values : list value) (j : nat) :
  nth_error (convert_loop SQL_WVARCHAR cursor i descs values) j =
    if (j <? i)%nat then nth_error values j
    else match nth_error values j with
         | None => None
         | Some v =>
             Some (match nth_error descs (j - i) with
                   | Some desc => outcome cursor v desc
                   | None => v
                   end)
         end.
Proof.
  revert i values. induction descs as [|d descs IH]; intros i values; simpl.
  - destruct (j <? i)%nat; [reflexivity|].
    destruct (nth_error values j); [|reflexivity].
    destruct (j - i)%nat; reflexivity.
  - destruct (nth_error values i) as [v|] eqn:Hv.
    + rewrite IH, (convert_at_outcome _ _ _ _ _ Hv).
      destruct (j <? i)%nat eqn:Hji.
      * apply Nat.ltb_lt in Hji.
        assert (Hjs : (j <? S i)%nat = true) by (apply Nat.ltb_lt; lia).
        rewrite Hjs. apply nth_error_setitem_other. lia.
      * apply Nat.ltb_ge in Hji.
        destruct (Nat.eq_dec j i) as [->|Hne].
        -- assert (Hjs : (i <? S i)%nat = true) by (apply Nat.ltb_lt; lia).
           rewrite Hjs, (nth_error_setitem_same _ _ _ _ Hv), Hv, Nat.sub_diag.
           reflexivity.
        -- assert (Hjs : (j <? S i)%nat = false) by (apply Nat.ltb_ge; lia).
           rewrite Hjs, nth_error_setitem_other by lia.
           replace (j - i)%nat with (S (j - S i)) by lia. reflexivity.
    + destruct (j <? i)%nat eqn:Hji; [reflexivity|].
      apply Nat.ltb_ge in Hji. apply nth_error_None in Hv.
      assert (Hj : nth_error values j = None) by (apply nth_error_None; lia).
      rewrite Hj. reflexivity.
Qed.

(** The descriptors handed to [_apply_output_converters], none when the
    argument is [None]. *)
Definition descriptors (description : option (list (option descriptor)))
  : list (option descriptor) :=
  match description with
  | Some descs => descs
  | None => []
  end.

Lemma apply_values_nth (self : Row) (cursor : Cursor)
      (description : option (list (option descriptor))) (i : nat) :
  nth_error (to_list (_values (_apply_output_converters SQL_WVARCHAR self cursor
                                 description))) i =
    match nth_error (to_list (_values self)) i with
    | None => None
    | Some v =>
        Some (match nth_error (descriptors description) i with
              | Some desc => outcome cursor v desc
              | None => v
              end)
    end.
Proof.
  destruct description as [[|d descs]|].
  - cbn [_apply_output_converters descriptors].
    destruct (nth_error (to_list (_values self)) i); [|reflexivity].
    destruct i; reflexivity.
  - unfold _apply_output_converters. cbn [_values to_list descriptors].
    rewrite convert_loop_nth.
    change (i <? 0)%nat with false. cbv iota.
    rewrite Nat.sub_0_r. reflexivity.
  - cbn [_apply_output_converters descriptors].
    destruct (nth_error (to_list (_values self)) i); [|reflexivity].
    destruct i; reflexivity.
Qed.

Lemma apply_length (self : Row) (cursor : Cursor)
      (description : option (list (option descriptor))) :
  __len__ (_apply_output_converters SQL_WVARCHAR self cursor description)
    = __len__ self.
Proof.
  unfold __len__. destruct description as [[|d descs]|]; try reflexivity.
  unfold _apply_output_converters. cbn [_values to_list].
  apply convert_loop_length.
Qed.

Lemma apply_column_map (self : Row) (cursor : Cursor)
      (description : option (list (option descriptor))) :
  _column_map (_apply_output_converters SQL_WVARCHAR self cursor description)
    = _column_map self.
Proof. destruct description as [[|d descs]|]; reflexivity. Qed.

(** C8. [_apply_output_converters] always returns, keeps the number of
    values, and decides each position on its own: a converter that raises
    leaves the value of its position as it was, a converter that returns has
    its result stored whatever happened at the other positions, and a
    position whose descriptor is absent or whose value is [None] is left
    alone. *)
Theorem conversion_is_positionwise
  (self : Row) (cursor : Cursor) (description : option (list (option descriptor))) :
  let self' := _apply_output_converters SQL_WVARCHAR self cursor description in
  let before := to_list (_values self) in
  let after := to_list (_values self') in
  List.length after = List.length before /\
  (forall i, nth_error after i =
     match nth_error before i with
     | None => None
     | Some v =>
         Some (match nth_error (descriptors description) i with
               | Some desc => outcome cursor v desc
               | None => v
               end)
     end) /\
  (forall i v d f e,
     nth_error before i = Some v ->
     nth_error (descriptors description) i = Some (Some d) ->
     find_converter SQL_WVARCHAR cursor (type_code d) v = Some f ->
     call_converter f v = Raise e ->
     nth_error after i = Some v) /\
  (forall i v d f v',
     nth_error before i = Some v -> v <> VNone ->
     nth_error (descriptors description) i = Some (Some d) ->
     find_converter SQL_WVARCHAR cursor (type_code d) v = Some f ->
     call_converter f v = Return v' ->
     nth_error after i = Some v') /\
  (forall i v,
     nth_error before i = Some v ->
     nth_error (descriptors description) i = Some None \/ v = VNone ->
     nth_error after i = Some v).
Proof.
  intros self' before after. subst self' before after.
  split; [apply (apply_length self cursor description)|].
  split; [apply apply_values_nth|].
  split; [|split].
  - intros i v d f e Hv Hd Hf Hraise.
    rewrite apply_values_nth, Hv, Hd. unfold outcome. rewrite Hf, Hraise.
    destruct v; reflexivity.
  - intros i v d f v' Hv Hnn Hd Hf Hret.
    rewrite apply_values_nth, Hv, Hd. unfold outcome. rewrite Hf, Hret.
    destruct v; [contradiction | reflexivity | reflexivity | reflexivity].
  - intros i v Hv [Hd | ->]; rewrite apply_values_nth, Hv.
    + rewrite Hd. reflexivity.
    + destruct (nth_error (descriptors description) i) as [[d|]|]; reflexivity.
Qed.

(** *** Lengths *)

(** The value sequence, the column map and the descriptors have one length. *)
Definition lengths_agree (self : Row) (m : dict Z) (descs : list (option descriptor))
  : Prop :=
  __len__ self = List.length m /\ List.length m = List.length descs.

(** C9, as the code has it. [_apply_output_converters] changes neither the
    number of values nor the column map, so a row whose values, column map
    and descriptors have one length keeps that property. *)
Theorem conversion_preserves_lengths
  (self : Row) (cursor : Cursor) (m : dict Z) (descs : list (option descriptor)) :
  _column_map self = Some m ->
  lengths_agree self m descs ->
  _column_map (_apply_output_converters SQL_WVARCHAR self cursor (Some descs)) = Some m /\
  lengths_agree (_apply_output_converters SQL_WVARCHAR self cursor (Some descs)) m descs.
Proof.
  intros Hm [Hv Hd]. split.
  - rewrite apply_column_map. exact Hm.
  - split; [rewrite apply_length; exact Hv | exact Hd].
Qed.

End Conversion.

(** *** Concrete rows *)

(** ODBC's type code for wide variable-length character data. *)
Definition odbc_wvarchar : Z := -9.

(** A registry with a converter for type 4 that always raises and, under
    the wide character type, one that returns the number of bytes it is
    given. *)
Definition failing_converter : converter := fun _ => Raise ConverterError.

Definition byte_count : converter :=
  fun v => match v with
           | VBytes b => Return (VInt (Z.of_nat (List.length b)))
           | _ => Raise ConverterError
           end.

Definition converting_cursor : Cursor :=
  {| lowercase := None;
     get_output_converter := fun sql_type =>
       if sql_type =? 4 then Some failing_converter
       else if sql_type =? odbc_wvarchar then Some byte_count
       else None |}.

Definition sample_description : list (option descriptor) :=
  [Some (mkDesc "a" 4); Some (mkDesc "b" 12); Some (mkDesc "c" 4)].

Lemma conversion_is_positionwise_witness :
  nth_error (to_list (_values (_apply_output_converters odbc_wvarchar sample_row
                                 converting_cursor (Some sample_description)))) 0
    = Some (VInt 1) /\
  nth_error (to_list (_values (_apply_output_converters odbc_wvarchar sample_row
                                 converting_cursor (Some sample_description)))) 1
    = Some (VInt 2) /\
  nth_error (to_list (_values (_apply_output_converters odbc_wvarchar sample_row
                                 converting_cursor (Some sample_description)))) 2
    = Some VNone.
Proof.
  destruct (conversion_is_positionwise odbc_wvarchar sample_row converting_cursor
              (Some sample_description)) as (_ & _ & Hraise & Hret & Hskip).
  split; [|split].
  - apply (Hraise 0%nat (VInt 1) (mkDesc "a" 4) failing_converter ConverterError);
      reflexivity.
  - apply (Hret 1%nat (VStr "x") (mkDesc "b" 12) byte_count (VInt 2));
      try reflexivity. discriminate.
  - apply (Hskip 2%nat VNone); [reflexivity | right; reflexivity].
Defined.

(** A row built from two values, an empty column map and one descriptor. *)
Definition mismatched_row : Row :=
  __init__ (plain_cursor None) (Some [Some (mkDesc "a" 4)])
           (PyTuple [VInt 1; VInt 2]) (Some []).

(** C9 fails as stated: [__init__] stores what it is given and compares no
    lengths. *)
Lemma construction_checks_no_length :
  _column_map mismatched_row = Some [] /\
  __len__ mismatched_row = 2%nat /\
  ~ lengths_agree mismatched_row [] [Some (mkDesc "a" 4)].
Proof.
  repeat split. intros [H _]. discriminate H.
Qed.

Lemma conversion_preserves_lengths_witness :
  _column_map (_apply_output_converters odbc_wvarchar sample_row converting_cursor
                 (Some sample_description))
    = Some [("a"%string, 0); ("b"%string, 1); ("c"%string, 2)] /\
  lengths_agree (_apply_output_converters odbc_wvarchar sample_row converting_cursor
                   (Some sample_description))
                [("a"%string, 0); ("b"%string, 1); ("c"%string, 2)]
                sample_description.
Proof.
  apply (conversion_preserves_lengths odbc_wvarchar sample_row converting_cursor).
  - reflexivity.
  - split; reflexivity.
Defined.

End Rows.

(** * Further properties of the pool *)

Module PoolFacts.

Import Pool.

(** The connections a trace closes, in the order of the calls. *)
Definition closed_conns (tr : list event) : list Connection :=
  flat_map (fun e => match e with EClose c => [c] | _ => [] end) tr.

(** The connections a trace probes, in the order of the calls. *)
Definition probed_conns (tr : list event) : list Connection :=
  flat_map (fun e => match e with EProbe c => [c] | _ => [] end) tr.

(** The instants at which a run returns a connection to the pool. *)
Definition put_times (ops : list op) : list Z :=
  flat_map (fun o => match o with OpPut now _ _ => [now] | _ => [] end) ops.

(** The keys of the pool's dictionary, in insertion order. *)
Definition keys (self : ConnectionPool) : list string := map fst (_pools self).

Lemma closed_conns_app (tr1 tr2 : list event) :
  closed_conns (tr1 ++ tr2) = closed_conns tr1 ++ closed_conns tr2.
Proof. unfold closed_conns. apply flat_map_app. Qed.

Lemma closed_conns_locked (tr : list event) :
  closed_conns (EAcquire :: tr ++ [ERelease]) = closed_conns tr.
Proof.
  change (EAcquire :: tr ++ [ERelease]) with ([EAcquire] ++ tr ++ [ERelease]).
  rewrite !closed_conns_app. simpl. apply app_nil_r.
Qed.

Lemma probed_conns_app (tr1 tr2 : list event) :
  probed_conns (tr1 ++ tr2) = probed_conns tr1 ++ probed_conns tr2.
Proof. unfold probed_conns. apply flat_map_app. Qed.

Lemma probed_conns_locked (tr : list event) :
  probed_conns (EAcquire :: tr ++ [ERelease]) = probed_conns tr.
Proof.
  change (EAcquire :: tr ++ [ERelease]) with ([EAcquire] ++ tr ++ [ERelease]).
  rewrite !probed_conns_app. simpl. apply app_nil_r.
Qed.

Lemma probed_closes (l : list Connection) : probed_conns (map EClose l) = [].
Proof. induction l as [|x l IH]; [reflexivity | exact IH]. Qed.

Lemma closed_closes (l : list Connection) : closed_conns (map EClose l) = l.
Proof.
  induction l as [|x l IH]; [reflexivity|].
  change (closed_conns (map EClose (x :: l))) with (x :: closed_conns (map EClose l)).
  rewrite IH. reflexivity.
Qed.

Section Driver.

Variable close_raises : Connection -> bool.
Variable probe_raises : Connection -> bool.

Local Abbreviation get_loop := (Pool.get_loop close_raises probe_raises).
Local Abbreviation get := (Pool.get close_raises probe_raises).
Local Abbreviation put := (Pool.put close_raises).
Local Abbreviation disable := (Pool.disable close_raises).
Local Abbreviation step := (Pool.step close_raises probe_raises).
Local Abbreviation run := (Pool.run close_raises probe_raises).
Local Abbreviation conn_close := (Pool.conn_close close_raises).

(** The loop splits the list into what it leaves and what it popped; of the
    popped entries the oldest is the one handed out, if any, and the others
    were closed, the most recent first. *)
Lemma get_loop_accounts (now idle_timeout : Z) (pool : list entry) :
  exists popped,
    pool = snd (fst (get_loop now idle_timeout pool)) ++ popped /\
    match fst (fst (get_loop now idle_timeout pool)) with
    | Some c =>
        exists t discarded,
          popped = (c, t) :: discarded /\
          closed_conns (snd (get_loop now idle_timeout pool))
            = rev (map fst discarded)
    | None =>
        snd (fst (get_loop now idle_timeout pool)) = [] /\
        closed_conns (snd (get_loop now idle_timeout pool)) = rev (map fst popped)
    end.
Proof.
  induction pool as [|[c t] l IH] using rev_ind.
  - rewrite get_loop_nil. exists []. simpl. auto.
  - rewrite get_loop_snoc.
    destruct IH as (popped & Hsplit & Hacc).
    destruct (now - t <? idle_timeout); [destruct (probe_raises c)|].
    2: { exists [(c, t)]. simpl. split; [reflexivity|]. exists t, []. auto. }
    all: destruct (get_loop now idle_timeout l) as [[[c'|] rest] tr];
      simpl in *;
      exists (popped ++ [(c, t)]);
      (split; [rewrite app_assoc, <- Hsplit; reflexivity|]).
    + destruct Hacc as (t' & discarded & -> & Hclosed).
      exists t', (discarded ++ [(c, t)]). split; [reflexivity|].
      rewrite map_app, rev_app_distr, Hclosed. reflexivity.
    + destruct Hacc as (-> & Hclosed). split; [reflexivity|].
      rewrite map_app, rev_app_distr, Hclosed. reflexivity.
    + destruct Hacc as (t' & discarded & -> & Hclosed).
      exists t', (discarded ++ [(c, t)]). split; [reflexivity|].
      rewrite map_app, rev_app_distr, Hclosed. reflexivity.
    + destruct Hacc as (-> & Hclosed). split; [reflexivity|].
      rewrite map_app, rev_app_distr, Hclosed. reflexivity.
Qed.

(** X1. [get] loses no connection: the entries it takes off the key's list
    are the most recent ones, the oldest of them is the connection handed
    out, if any, and each of the others is closed once, the most recent
    first; when nothing is handed out the list is left empty. *)
Theorem get_accounts_for_every_entry
  (self self' : ConnectionPool) (now : Z) (k : string)
  (r : option Connection) (tr : list event) :
  _enabled self = true ->
  get self now k = (r, self', tr) ->
  exists popped,
    pool_of self k = pool_of self' k ++ popped /\
    match r with
    | Some c =>
        exists t discarded,
          popped = (c, t) :: discarded /\
          closed_conns tr = rev (map fst discarded)
    | None =>
        pool_of self' k = [] /\ closed_conns tr = rev (map fst popped)
    end.
Proof.
  intros He Hget.
  destruct (get_enabled close_raises probe_raises self now k He)
    as (s1 & Hg & Hrest & _).
  rewrite Hget in Hg. injection Hg as -> <- ->.
  rewrite closed_conns_locked, Hrest.
  apply get_loop_accounts.
Qed.

(** X2. What [get] hands out was pooled under the key asked for, is fresh
    at the time of the call, and has just passed the probe: the probe is the
    last driver call of the [get]. *)
Theorem get_hands_out_pooled_fresh_probed
  (self self' : ConnectionPool) (now : Z) (k : string)
  (c : Connection) (tr : list event) :
  _enabled self = true ->
  get self now k = (Some c, self', tr) ->
  (exists t, In (c, t) (pool_of self k) /\ now - t < _idle_timeout self) /\
  probe_raises c = false /\
  exists tr', tr = tr' ++ [EProbe c; ERelease].
Proof.
  intros He Hget.
  destruct (get_enabled close_raises probe_raises self now k He)
    as (s1 & Hg & _).
  rewrite Hget in Hg. injection Hg as Hr _ Htr.
  pose proof (get_loop_spec close_raises probe_raises now (_idle_timeout self)
                (pool_of self k)) as Hspec.
  assert (Hlast : forall pool c0 rest0 tr0,
             get_loop now (_idle_timeout self) pool = (Some c0, rest0, tr0) ->
             exists tr', tr0 = tr' ++ [EProbe c0]).
  { clear. induction pool as [|[c1 t1] l IH] using rev_ind; intros c0 rest0 tr0.
    - rewrite get_loop_nil. discriminate.
    - rewrite get_loop_snoc.
      destruct (now - t1 <? _idle_timeout self); [destruct (probe_raises c1)|].
      2: { intros [= <- <- <-]. exists []. reflexivity. }
      all: destruct (get_loop now (_idle_timeout self) l) as [[r1 rest1] tr1] eqn:E;
        intros [= -> <- <-];
        destruct (IH _ _ _ eq_refl) as (tr' & ->).
      + exists (EProbe c1 :: EClose c1 :: tr'). reflexivity.
      + exists (EClose c1 :: tr'). reflexivity. }
  destruct (get_loop now (_idle_timeout self) (pool_of self k))
    as [[r0 rest0] tr0] eqn:E.
  simpl in Hr, Htr. subst r0.
  destruct Hspec as (t & suffix & Hsplit & Hfresh & Hok).
  split; [|split].
  - exists t. split; [|exact Hfresh]. rewrite Hsplit. apply in_or_app. right. left.
    reflexivity.
  - exact Hok.
  - destruct (Hlast _ _ _ _ E) as (tr' & ->).
    exists (EAcquire :: tr'). rewrite Htr. simpl. rewrite <- app_assoc. reflexivity.
Qed.

(** When every entry is stale the loop closes them all, the most recent
    first, and probes none. *)
Lemma get_loop_all_stale (now idle_timeout : Z) (pool : list entry) :
  Forall (fun e => idle_timeout <= now - snd e) pool ->
  get_loop now idle_timeout pool = (None, [], map EClose (rev (map fst pool))).
Proof.
  induction pool as [|[c t] l IH] using rev_ind; intros Hall.
  - apply get_loop_nil.
  - apply Forall_app in Hall. destruct Hall as [Hl Hc].
    inversion Hc as [|? ? Ht _]; subst. simpl in Ht.
    rewrite get_loop_snoc, (IH Hl).
    apply Z.ltb_ge in Ht. rewrite Ht.
    rewrite map_app, rev_app_distr. reflexivity.
Qed.

Lemma get_all_stale (self : ConnectionPool) (now : Z) (k : string) :
  _enabled self = true ->
  Forall (fun e => _idle_timeout self <= now - snd e) (pool_of self k) ->
  fst (fst (get self now k)) = None /\
  pool_of (snd (fst (get self now k))) k = [] /\
  snd (get self now k)
    = EAcquire :: map EClose (rev (map fst (pool_of self k))) ++ [ERelease].
Proof.
  intros He Hall.
  destruct (get_enabled close_raises probe_raises self now k He)
    as (s1 & Hg & Hrest & _).
  rewrite (get_loop_all_stale _ _ _ Hall) in Hg, Hrest.
  rewrite Hg. simpl. auto.
Qed.

(** X3. When every entry of the key has reached the idle timeout, [get]
    returns none, leaves the key's list empty and closes every entry, the
    most recent first, without a single probe. *)
Theorem all_stale_get_empties_key
  (self : ConnectionPool) (now : Z) (k : string) :
  _enabled self = true ->
  Forall (fun e => _idle_timeout self <= now - snd e) (pool_of self k) ->
  fst (fst (get self now k)) = None /\
  pool_of (snd (fst (get self now k))) k = [] /\
  snd (get self now k)
    = EAcquire :: map EClose (rev (map fst (pool_of self k))) ++ [ERelease].
Proof. exact (get_all_stale self now k). Qed.

(** *** Time stamps *)

Lemma sorted_snoc_bound (l : list Z) (x : Z) :
  Sorted Z.le (l ++ [x]) -> Forall (fun y => y <= x) l.
Proof.
  intros H. apply Sorted_StronglySorted in H; [|exact Z.le_trans].
  induction l as [|a l IH]; [constructor|].
  simpl in H. inversion H as [|? ? Hs Hall]; subst.
  constructor; [|exact (IH Hs)].
  rewrite Forall_forall in Hall. apply Hall, in_or_app. right. left. reflexivity.
Qed.

Lemma strongly_sorted_prefix (l1 l2 : list Z) :
  StronglySorted Z.le (l1 ++ l2) -> StronglySorted Z.le l1.
Proof.
  induction l1 as [|a l1 IH]; intros H; [constructor|].
  simpl in H. inversion H as [|? ? Hs Hall]; subst.
  constructor; [exact (IH Hs)|].
  apply Forall_app in Hall. tauto.
Qed.

Lemma strongly_sorted_snoc (l : list Z) (x : Z) :
  StronglySorted Z.le l -> Forall (fun y => y <= x) l ->
  StronglySorted Z.le (l ++ [x]).
Proof.
  induction l as [|a l IH]; intros Hs Hall; simpl.
  - constructor; constructor.
  - inversion Hs as [|? ? Hs' Ha]; subst. inversion Hall as [|? ? Hax Hall']; subst.
    constructor; [exact (IH Hs' Hall')|].
    apply Forall_app. split; [exact Ha | constructor; [exact Hax | constructor]].
Qed.

(** X4. With the clock that cannot run backwards and the most recent entry
    stale, every entry of the key is stale: [get] returns none and closes
    them all without a probe. *)
Theorem stale_top_cascades
  (self : ConnectionPool) (now : Z) (k : string)
  (older : list entry) (c : Connection) (t : Z) :
  _enabled self = true ->
  Sorted Z.le (map snd (pool_of self k)) ->
  pool_of self k = older ++ [(c, t)] ->
  _idle_timeout self <= now - t ->
  fst (fst (get self now k)) = None /\
  pool_of (snd (fst (get self now k))) k = [] /\
  probed_conns (snd (get self now k)) = [] /\
  closed_conns (snd (get self now k)) = c :: rev (map fst older).
Proof.
  intros He Hsorted Hpool Hstale.
  assert (Hall : Forall (fun e => _idle_timeout self <= now - snd e) (pool_of self k)).
  { rewrite Hpool in Hsorted |- *. rewrite map_app in Hsorted. simpl in Hsorted.
    apply sorted_snoc_bound in Hsorted.
    apply Forall_app. split.
    - rewrite Forall_forall in Hsorted |- *. intros e Hin.
      specialize (Hsorted (snd e) (in_map snd _ _ Hin)). lia.
    - constructor; [simpl; lia | constructor]. }
  destruct (get_all_stale self now k He Hall) as (Hr & Hrest & Htr).
  split; [exact Hr|]. split; [exact Hrest|].
  rewrite Htr, probed_conns_locked, closed_conns_locked, Hpool.
  rewrite map_app, rev_app_distr, probed_closes, closed_closes. auto.
Qed.

(** Every call either takes entries off the top of a key's list or, for a
    [put] to that key, adds one entry on top. *)
Lemma step_pool_of (self : ConnectionPool) (o : op) (k : string) :
  (exists suffix, pool_of self k = pool_of (step self o) k ++ suffix) \/
  (exists now c, o = OpPut now k c /\
                 pool_of (step self o) k = pool_of self k ++ [(c, now)]).
Proof.
  destruct o as [m t| |now k0|now k0 c]; simpl.
  - left. exists []. rewrite app_nil_r. reflexivity.
  - left. exists (pool_of self k). reflexivity.
  - left. destruct (_enabled self) eqn:He.
    + destruct (get_enabled close_raises probe_raises self now k0 He)
        as (s1 & Hg & Hrest & Hoth & _).
      rewrite Hg. simpl.
      destruct (String.eqb_spec k k0) as [->|Hne].
      * rewrite Hrest.
        destruct (get_loop_accounts now (_idle_timeout self) (pool_of self k0))
          as (popped & Hsplit & _).
        exists popped. exact Hsplit.
      * rewrite Hoth by exact Hne. exists []. rewrite app_nil_r. reflexivity.
    + rewrite get_disabled by exact He. simpl. exists []. rewrite app_nil_r.
      reflexivity.
  - destruct (_enabled self) eqn:He.
    + destruct (put_enabled close_raises self now k0 c He)
        as (s1 & Hp & Hl & Hoth & _).
      assert (Hs : snd (fst (put self now k0 c)) = s1).
      { rewrite Hp. destruct (_ <? _); reflexivity. }
      rewrite Hs.
      destruct (String.eqb_spec k k0) as [->|Hne].
      * rewrite Hl. destruct (_ <? _).
        -- right. exists now, c. auto.
        -- left. exists []. rewrite app_nil_r. reflexivity.
      * rewrite Hoth by exact Hne. left. exists []. rewrite app_nil_r. reflexivity.
    + rewrite put_disabled by exact He. simpl. left. exists [].
      rewrite app_nil_r. reflexivity.
Qed.

Lemma run_sorted (ops : list op) (self : ConnectionPool) :
  (forall k, StronglySorted Z.le (map snd (pool_of self k))) ->
  (forall k t, In t (map snd (pool_of self k)) -> Forall (Z.le t) (put_times ops)) ->
  StronglySorted Z.le (put_times ops) ->
  forall k, StronglySorted Z.le (map snd (pool_of (run self ops) k)).
Proof.
  unfold Pool.run. revert self.
  induction ops as [|o ops IH]; intros self Hs Hb Hops k; simpl; [apply Hs|].
  assert (Htail : StronglySorted Z.le (put_times ops) /\
                  forall t, In t (put_times [o]) -> Forall (Z.le t) (put_times ops)).
  { change (o :: ops) with ([o] ++ ops) in Hops.
    unfold put_times in Hops |- *. rewrite flat_map_app in Hops.
    destruct o; simpl in *; try (split; [exact Hops | intros ? []]).
    inversion Hops as [|? ? Hs' Hall]; subst.
    split; [exact Hs'|]. intros t [<-|[]]. exact Hall. }
  destruct Htail as [Hops' Hnew].
  assert (Hold : forall k0 t, In t (map snd (pool_of self k0)) ->
                              Forall (Z.le t) (put_times [o]) /\
                              Forall (Z.le t) (put_times ops)).
  { intros k0 t Hin. specialize (Hb k0 t Hin).
    change (o :: ops) with ([o] ++ ops) in Hb.
    unfold put_times in Hb |- *. rewrite flat_map_app in Hb.
    apply Forall_app in Hb. exact Hb. }
  apply IH; [| |exact Hops'].
  - intros k0. destruct (step_pool_of self o k0) as [(suffix & Hsplit)|(now & c & -> & Hadd)].
    + specialize (Hs k0). rewrite Hsplit, map_app in Hs.
      exact (strongly_sorted_prefix _ _ Hs).
    + rewrite Hadd, map_app. simpl. apply strongly_sorted_snoc; [apply Hs|].
      rewrite Forall_forall. intros t Hin.
      destruct (Hold k0 t Hin) as [Ht _]. simpl in Ht.
      inversion Ht; subst. assumption.
  - intros k0 t Hin.
    destruct (step_pool_of self o k0) as [(suffix & Hsplit)|(now & c & -> & Hadd)].
    + apply (Hold k0 t). rewrite Hsplit, map_app. apply in_or_app. left. exact Hin.
    + rewrite Hadd, map_app in Hin. apply in_app_or in Hin.
      destruct Hin as [Hin|[<-|[]]].
      * apply (Hold k0 t Hin).
      * apply Hnew. simpl. left. reflexivity.
Qed.

(** X5. Along every run from a new pool in which the instants of the [put]
    calls never decrease, the entries of every key stay in the order of their
    time stamps, the oldest first. *)
Theorem timestamps_sorted_along_run (ops : list op) (k : string) :
  Sorted Z.le (put_times ops) ->
  Sorted Z.le (map snd (pool_of (run init ops) k)).
Proof.
  intros Hops. apply StronglySorted_Sorted.
  apply run_sorted.
  - intros k0. constructor.
  - intros k0 t [].
  - apply Sorted_StronglySorted; [exact Z.le_trans | exact Hops].
Qed.

(** *** Keys *)

(** X6. A [get] or a [put] on one key leaves the entries of every other
    key as they were, whether pooling is enabled or not. *)
Theorem other_keys_untouched
  (self : ConnectionPool) (now : Z) (k k' : string) (c : Connection) :
  k' <> k ->
  pool_of (snd (fst (get self now k))) k' = pool_of self k' /\
  pool_of (snd (fst (put self now k c))) k' = pool_of self k'.
Proof.
  intros Hne. destruct (_enabled self) eqn:He.
  - destruct (get_enabled close_raises probe_raises self now k He)
      as (s1 & Hg & _ & Hoth & _).
    destruct (put_enabled close_raises self now k c He)
      as (s2 & Hp & _ & Hoth2 & _).
    rewrite Hg. simpl. split; [apply Hoth; exact Hne|].
    assert (Hs : snd (fst (put self now k c)) = s2).
    { rewrite Hp. destruct (_ <? _); reflexivity. }
    rewrite Hs. apply Hoth2. exact Hne.
  - rewrite get_disabled, put_disabled by exact He. simpl. auto.
Qed.

Lemma keys_dict_set (k : string) (l : list entry) (d : dict (list entry)) :
  map fst (dict_set k l d) =
    match dict_get k d with
    | Some _ => map fst d
    | None => map fst d ++ [k]
    end.
Proof.
  induction d as [|[k0 l0] d IH]; simpl; [reflexivity|].
  destruct (String.eqb k k0) eqn:E; simpl; [reflexivity|].
  rewrite IH. destruct (dict_get k d); reflexivity.
Qed.

(** X7. [get] neither adds nor removes a key: a key whose list it has
    emptied stays in the dictionary, and a key never seen is not created.
    [put] on an enabled pool leaves the key in the dictionary even when it
    rejects the connection, adding it last if it was not there; on a disabled
    pool it adds nothing. *)
Theorem keys_only_grow
  (self : ConnectionPool) (now : Z) (k : string) (c : Connection) :
  keys (snd (fst (get self now k))) = keys self /\
  keys (snd (fst (put self now k c))) =
    match dict_get k (_pools self) with
    | Some _ => keys self
    | None => if _enabled self then keys self ++ [k] else keys self
    end.
Proof.
  unfold keys, Pool.get, Pool.put, defaultdict_getitem.
  destruct (_enabled self); simpl.
  - destruct (dict_get k (_pools self)) as [pool|] eqn:E.
    + split.
      * destruct (get_loop now (_idle_timeout self) pool) as [[r rest] tr]. simpl.
        rewrite keys_dict_set, E. reflexivity.
      * destruct (Z.of_nat (List.length pool) <? _max_size self); simpl;
          [rewrite keys_dict_set, E|]; reflexivity.
    + split; [reflexivity|].
      destruct (Z.of_nat (List.length (@nil entry)) <? _max_size self); simpl.
      * rewrite keys_dict_set, dict_get_set_same, keys_dict_set, E. reflexivity.
      * rewrite keys_dict_set, E. reflexivity.
  - destruct (dict_get k (_pools self)); auto.
Qed.

(** *** Disabled pools *)

Lemma step_disabled_empty (self : ConnectionPool) (o : op) :
  (_enabled self = false -> _pools self = []) ->
  _enabled (step self o) = false -> _pools (step self o) = [].
Proof.
  intros Hinv. destruct o as [m t| |now k|now k c]; simpl.
  - discriminate.
  - reflexivity.
  - destruct (_enabled self) eqn:He.
    + destruct (get_enabled close_raises probe_raises self now k He)
        as (s1 & Hg & _ & _ & He1 & _).
      rewrite Hg. simpl. rewrite He1. discriminate.
    + rewrite get_disabled by exact He. simpl. intros _. apply Hinv. reflexivity.
  - destruct (_enabled self) eqn:He.
    + destruct (put_enabled close_raises self now k c He)
        as (s1 & Hp & _ & _ & He1 & _).
      assert (Hs : snd (fst (put self now k c)) = s1).
      { rewrite Hp. destruct (_ <? _); reflexivity. }
      rewrite Hs, He1. discriminate.
    + rewrite put_disabled by exact He. simpl. intros _. apply Hinv. reflexivity.
Qed.

(** X8. Along every run from a new pool, a pool that is disabled holds no
    key and no connection: nothing is stored before the first [enable], and
    [disable] leaves nothing behind. *)
Theorem disabled_pool_holds_nothing (ops : list op) :
  _enabled (run init ops) = false ->
  _pools (run init ops) = [] /\ pooled_conns (run init ops) = [].
Proof.
  assert (Hinv : forall ops0 self,
             (_enabled self = false -> _pools self = []) ->
             _enabled (run self ops0) = false -> _pools (run self ops0) = []).
  { unfold Pool.run. induction ops0 as [|o ops0 IH]; intros self Hs; simpl.
    - exact Hs.
    - apply IH. apply step_disabled_empty. exact Hs. }
  intros He. pose proof (Hinv ops init (fun _ => eq_refl) He) as Hp.
  split; [exact Hp|]. unfold pooled_conns. rewrite Hp. reflexivity.
Qed.

(** *** [put] *)

(** X9. [put] loses no connection: either it stores the connection on top
    of the key's list, returns normally and closes nothing, or it stores
    nothing and closes the connection once. *)
Theorem put_stores_or_closes
  (self : ConnectionPool) (now : Z) (k : string) (c : Connection) :
  (fst (fst (put self now k c)) = Return tt /\
   pool_of (snd (fst (put self now k c))) k = pool_of self k ++ [(c, now)] /\
   closed_conns (snd (put self now k c)) = []) \/
  (pool_of (snd (fst (put self now k c))) k = pool_of self k /\
   closed_conns (snd (put self now k c)) = [c]).
Proof.
  destruct (_enabled self) eqn:He.
  - destruct (put_enabled close_raises self now k c He) as (s1 & Hp & Hl & _).
    rewrite Hp. destruct (_ <? _); simpl; [left | right]; auto.
  - right. rewrite put_disabled by exact He. simpl. auto.
Qed.

(** X10. A connection returned to an enabled pool with room and asked for
    again while it is fresh and alive is the one handed out, and the pool is
    back to the entries it held before the [put], for every key. *)
Theorem put_then_get_round_trip
  (self : ConnectionPool) (t now : Z) (k : string) (c : Connection) :
  _enabled self = true ->
  Z.of_nat (List.length (pool_of self k)) < _max_size self ->
  now - t < _idle_timeout self ->
  probe_raises c = false ->
  fst (fst (get (snd (fst (put self t k c))) now k)) = Some c /\
  (forall k', pool_of (snd (fst (get (snd (fst (put self t k c))) now k))) k'
              = pool_of self k') /\
  snd (get (snd (fst (put self t k c))) now k) = [EAcquire; EProbe c; ERelease].
Proof.
  intros He Hroom Hfresh Hok.
  destruct (put_enabled close_raises self t k c He)
    as (s1 & Hp & Hl & Hoth & He1 & _ & Ht1).
  apply Z.ltb_lt in Hroom. rewrite Hroom in Hp, Hl. rewrite Hp. simpl.
  destruct (get_enabled close_raises probe_raises s1 now k He1)
    as (s2 & Hg & Hrest & Hoth2 & _).
  rewrite Hl, get_loop_snoc, Ht1 in Hg, Hrest.
  apply Z.ltb_lt in Hfresh. rewrite Hfresh, Hok in Hg, Hrest.
  rewrite Hg. simpl in *. split; [reflexivity|]. split; [|reflexivity].
  intros k'. destruct (String.eqb_spec k' k) as [->|Hne]; [exact Hrest|].
  rewrite Hoth2, Hoth by exact Hne. reflexivity.
Qed.

End Driver.

(** *** The properties at work on small pools *)

Lemma get_accounts_for_every_entry_witness :
  exists popped,
    pool_of two_returned "db"%string
      = pool_of (snd (fst (get never_raises never_raises two_returned 2 "db"%string)))
                "db"%string ++ popped /\
    exists t discarded,
      popped = (2%nat, t) :: discarded /\
      closed_conns (snd (get never_raises never_raises two_returned 2 "db"%string))
        = rev (map fst discarded).
Proof.
  apply (get_accounts_for_every_entry never_raises never_raises two_returned
           (snd (fst (get never_raises never_raises two_returned 2 "db"%string)))
           2 "db"%string (Some 2%nat)
           (snd (get never_raises never_raises two_returned 2 "db"%string))).
  - reflexivity.
  - reflexivity.
Defined.

Lemma get_hands_out_pooled_fresh_probed_witness :
  (exists t, In (2%nat, t) (pool_of two_returned "db"%string) /\
             2 - t < _idle_timeout two_returned) /\
  never_raises 2%nat = false /\
  exists tr',
    snd (get never_raises never_raises two_returned 2 "db"%string)
      = tr' ++ [EProbe 2%nat; ERelease].
Proof.
  apply (get_hands_out_pooled_fresh_probed never_raises never_raises two_returned
           (snd (fst (get never_raises never_raises two_returned 2 "db"%string)))
           2 "db"%string 2%nat
           (snd (get never_raises never_raises two_returned 2 "db"%string))).
  - reflexivity.
  - reflexivity.
Defined.

Lemma all_stale_get_empties_key_witness :
  fst (fst (get never_raises never_raises aged_pool 20 "db"%string)) = None /\
  pool_of (snd (fst (get never_raises never_raises aged_pool 20 "db"%string)))
          "db"%string = [] /\
  snd (get never_raises never_raises aged_pool 20 "db"%string)
    = EAcquire :: map EClose (rev (map fst (pool_of aged_pool "db"%string)))
        ++ [ERelease].
Proof.
  apply (all_stale_get_empties_key never_raises never_raises aged_pool 20 "db"%string).
  - reflexivity.
  - change (Forall (fun e : entry => 10 <= 20 - snd e) [(1%nat, 0); (2%nat, 5)]).
    repeat constructor; simpl; lia.
Defined.

Lemma stale_top_cascades_witness :
  fst (fst (get never_raises never_raises aged_pool 20 "db"%string)) = None /\
  pool_of (snd (fst (get never_raises never_raises aged_pool 20 "db"%string)))
          "db"%string = [] /\
  probed_conns (snd (get never_raises never_raises aged_pool 20 "db"%string)) = [] /\
  closed_conns (snd (get never_raises never_raises aged_pool 20 "db"%string))
    = 2%nat :: rev (map fst [(1%nat, 0)]).
Proof.
  apply (stale_top_cascades never_raises never_raises aged_pool 20 "db"%string
           [(1%nat, 0)] 2%nat 5).
  - reflexivity.
  - change (Sorted Z.le [0; 5]). repeat constructor. lia.
  - reflexivity.
  - simpl. lia.
Defined.

Lemma timestamps_sorted_along_run_witness :
  Sorted Z.le
    (map snd (pool_of (run never_raises never_raises init
                         [OpEnable 5 600; OpPut 0 "db"%string 1%nat;
                          OpPut 1 "db"%string 2%nat]) "db"%string)).
Proof.
  apply (timestamps_sorted_along_run never_raises never_raises
           [OpEnable 5 600; OpPut 0 "db"%string 1%nat; OpPut 1 "db"%string 2%nat]
           "db"%string).
  change (Sorted Z.le [0; 1]). repeat constructor. lia.
Defined.

Lemma other_keys_untouched_witness :
  pool_of (snd (fst (get never_raises never_raises two_returned 2 "db"%string)))
          "other"%string = pool_of two_returned "other"%string /\
  pool_of (snd (fst (put never_raises two_returned 2 "db"%string 3%nat)))
          "other"%string = pool_of two_returned "other"%string.
Proof.
  apply (other_keys_untouched never_raises never_raises two_returned 2
           "db"%string "other"%string 3%nat).
  discriminate.
Defined.

Lemma disabled_pool_holds_nothing_witness :
  _pools (run never_raises never_raises init
            [OpEnable 5 600; OpPut 0 "db"%string 1%nat; OpDisable]) = [] /\
  pooled_conns (run never_raises never_raises init
                  [OpEnable 5 600; OpPut 0 "db"%string 1%nat; OpDisable]) = [].
Proof.
  apply (disabled_pool_holds_nothing never_raises never_raises
           [OpEnable 5 600; OpPut 0 "db"%string 1%nat; OpDisable]).
  reflexivity.
Defined.

Lemma put_then_get_round_trip_witness :
  fst (fst (get never_raises never_raises
              (snd (fst (put never_raises (enable init 5 600) 0 "db"%string 1%nat)))
              1 "db"%string)) = Some 1%nat /\
  (forall k',
     pool_of (snd (fst (get never_raises never_raises
                          (snd (fst (put never_raises (enable init 5 600) 0
                                         "db"%string 1%nat)))
                          1 "db"%string))) k'
       = pool_of (enable init 5 600) k') /\
  snd (get never_raises never_raises
         (snd (fst (put never_raises (enable init 5 600) 0 "db"%string 1%nat)))
         1 "db"%string) = [EAcquire; EProbe 1%nat; ERelease].
Proof.
  apply (put_then_get_round_trip never_raises never_raises (enable init 5 600)
           0 1 "db"%string 1%nat).
  - reflexivity.
  - simpl. lia.
  - simpl. lia.
  - reflexivity.
Defined.

(** *** The ledger of a run *)

(** The connections of all the lists of a dictionary. *)
Definition dict_conns (d : dict (list entry)) : list Connection :=
  flat_map (fun kv => map fst (snd kv)) d.

(** The list under a key, none when the key is not there. *)
Definition dict_pool (k : string) (d : dict (list entry)) : list entry :=
  match dict_get k d with
  | Some l => l
  | None => []
  end.

(** How many times a connection occurs in a list. *)
Definition occurrences (l : list Connection) (x : Connection) : nat :=
  count_occ Nat.eq_dec l x.

Lemma occurrences_app (l1 l2 : list Connection) (x : Connection) :
  occurrences (l1 ++ l2) x = (occurrences l1 x + occurrences l2 x)%nat.
Proof. apply count_occ_app. Qed.

Lemma dict_conns_set (k : string) (l' : list entry) (d : dict (list entry))
      (x : Connection) :
  (occurrences (dict_conns (dict_set k l' d)) x
     + occurrences (map fst (dict_pool k d)) x
   = occurrences (dict_conns d) x + occurrences (map fst l') x)%nat.
Proof.
  unfold dict_conns, dict_pool.
  induction d as [|[k0 l0] d IH]; simpl.
  - rewrite occurrences_app. simpl. lia.
  - destruct (String.eqb k k0) eqn:E; simpl; rewrite !occurrences_app; lia.
Qed.

(** What a call receives from its caller, hands to its caller, and closes. *)
Definition handed_out (r : option Connection) : list Connection :=
  match r with
  | Some c => [c]
  | None => []
  end.

Ltac count_lia :=
  unfold occurrences, entry, Connection in *;
  cbn [count_occ] in *;
  repeat match goal with
         | |- context [Nat.eq_dec ?a ?b] => destruct (Nat.eq_dec a b)
         | H : context [Nat.eq_dec ?a ?b] |- _ => destruct (Nat.eq_dec a b)
         end;
  lia.

Section Ledger.

Variable close_raises : Connection -> bool.
Variable probe_raises : Connection -> bool.

Local Abbreviation get_loop := (Pool.get_loop close_raises probe_raises).
Local Abbreviation get := (Pool.get close_raises probe_raises).
Local Abbreviation put := (Pool.put close_raises).
Local Abbreviation disable := (Pool.disable close_raises).
Local Abbreviation step := (Pool.step close_raises probe_raises).

Definition step_given (o : op) : list Connection :=
  match o with
  | OpPut _ _ c => [c]
  | _ => []
  end.

Definition step_taken (self : ConnectionPool) (o : op) : list Connection :=
  match o with
  | OpGet now k => handed_out (fst (fst (get self now k)))
  | _ => []
  end.

Definition step_closed (self : ConnectionPool) (o : op) : list Connection :=
  match o with
  | OpEnable _ _ => []
  | OpDisable => closed_conns (snd (disable self))
  | OpGet now k => closed_conns (snd (get self now k))
  | OpPut now k c => closed_conns (snd (put self now k c))
  end.

(** The connections a run receives through [put]. *)
Definition run_given (ops : list op) : list Connection := flat_map step_given ops.

(** The connections the [get] calls of a run hand out. *)
Fixpoint run_taken (self : ConnectionPool) (ops : list op) : list Connection :=
  match ops with
  | [] => []
  | o :: ops' => step_taken self o ++ run_taken (step self o) ops'
  end.

(** The connections a run closes, once for each [close()] call. *)
Fixpoint run_closed (self : ConnectionPool) (ops : list op) : list Connection :=
  match ops with
  | [] => []
  | o :: ops' => step_closed self o ++ run_closed (step self o) ops'
  end.

Lemma popped_accounted (now idle_timeout : Z) (pool : list entry) (x : Connection) :
  occurrences (map fst pool) x =
    (occurrences (map fst (snd (fst (get_loop now idle_timeout pool)))) x
     + occurrences (handed_out (fst (fst (get_loop now idle_timeout pool)))) x
     + occurrences (closed_conns (snd (get_loop now idle_timeout pool))) x)%nat.
Proof.
  destruct (get_loop_accounts close_raises probe_raises now idle_timeout pool)
    as (popped & Hsplit & Hacc).
  destruct (get_loop now idle_timeout pool) as [[r rest] tr]. simpl in *.
  rewrite Hsplit, map_app, occurrences_app.
  destruct r as [c|].
  - destruct Hacc as (t & discarded & -> & ->).
    unfold occurrences. rewrite count_occ_rev. simpl. count_lia.
  - destruct Hacc as (_ & ->).
    unfold occurrences. rewrite count_occ_rev. simpl. count_lia.
Qed.

Lemma step_ledger (self : ConnectionPool) (o : op) (x : Connection) :
  (occurrences (pooled_conns self) x + occurrences (step_given o) x
   = occurrences (pooled_conns (step self o)) x
     + occurrences (step_taken self o) x
     + occurrences (step_closed self o) x)%nat.
Proof.
  destruct o as [m t| |now k|now k c];
    cbn [step_given step_taken step_closed Pool.step].
  - unfold pooled_conns; simpl. count_lia.
  - rewrite disable_trace, closed_conns_locked, closed_closes.
    unfold pooled_conns at 2; simpl. count_lia.
  - unfold Pool.get. destruct (_enabled self); cbn [negb].
    2: { cbn [fst snd handed_out closed_conns flat_map]. simpl. count_lia. }
    destruct (dict_get k (_pools self)) as [pool|] eqn:E.
    2: { cbn [fst snd handed_out]. simpl. count_lia. }
    pose proof (popped_accounted now (_idle_timeout self) pool x) as Hacc.
    destruct (get_loop now (_idle_timeout self) pool) as [[r rest] tr].
    cbn [fst snd] in Hacc |- *.
    rewrite closed_conns_locked.
    pose proof (dict_conns_set k rest (_pools self) x) as Hset.
    unfold dict_pool in Hset. rewrite E in Hset.
    unfold pooled_conns, set_pools; cbn [_pools]. unfold dict_conns in Hset.
    count_lia.
  - unfold Pool.put, defaultdict_getitem. destruct (_enabled self); cbn [negb].
    2: { unfold Pool.conn_close. cbn [fst snd]. simpl. count_lia. }
    pose proof (dict_conns_set k) as Hset. unfold dict_pool, dict_conns in Hset.
    unfold Pool.conn_close.
    destruct (dict_get k (_pools self)) as [pool|] eqn:E.
    + destruct (Z.of_nat (List.length pool) <? _max_size self); cbn [fst snd].
      * specialize (Hset (pool ++ [(c, now)]) (_pools self) x).
        rewrite E, map_app, occurrences_app in Hset.
        unfold pooled_conns, set_pools; cbn [_pools]. simpl in *. count_lia.
      * unfold pooled_conns, set_pools; cbn [_pools]. simpl. count_lia.
    + pose proof (Hset [] (_pools self) x) as Hnew. rewrite E in Hnew.
      destruct (Z.of_nat (List.length (@nil entry)) <? _max_size self);
        cbn [fst snd].
      * specialize (Hset ([] ++ [(c, now)]) (dict_set k [] (_pools self)) x).
        rewrite dict_get_set_same in Hset.
        unfold pooled_conns, set_pools; cbn [_pools]. simpl in *. count_lia.
      * unfold pooled_conns, set_pools; cbn [_pools]. simpl in *. count_lia.
Qed.

Lemma run_ledger (ops : list op) (self : ConnectionPool) (x : Connection) :
  (occurrences (pooled_conns self) x + occurrences (run_given ops) x
   = occurrences (pooled_conns (Pool.run close_raises probe_raises self ops)) x
     + occurrences (run_taken self ops) x
     + occurrences (run_closed self ops) x)%nat.
Proof.
  unfold Pool.run, run_given. revert self.
  induction ops as [|o ops IH]; intros self; simpl.
  - count_lia.
  - rewrite !occurrences_app.
    pose proof (step_ledger self o x). specialize (IH (step self o)). count_lia.
Qed.

(** X20. No connection is lost and none is made up: along every run from a
    new pool, the connections given to [put] are, counted with repetition,
    those still pooled, those handed out by [get] and those closed, by
    [get], [put] or [disable]. *)
Theorem connections_are_conserved (ops : list op) :
  Permutation
    (run_given ops)
    (pooled_conns (Pool.run close_raises probe_raises init ops)
       ++ run_taken init ops ++ run_closed init ops).
Proof.
  apply (Permutation_count_occ Nat.eq_dec). intros x.
  pose proof (run_ledger ops init x) as H.
  rewrite !count_occ_app. unfold occurrences in H. simpl in H. count_lia.
Qed.

End Ledger.

End PoolFacts.

(** * Further properties of the row *)

Module RowFacts.

Import Rows.

(** ** Name-based access *)

Lemma seq_getitem_not_attribute (s : pyseq) (index : Z) (msg : string) :
  seq_getitem s index <> Raise (AttributeError msg).
Proof.
  unfold seq_getitem.
  destruct (_ && _); [destruct (nth_error _ _)|]; discriminate.
Qed.

(** X11. On a case-insensitive cursor a name that is no key of the column
    map resolves to the position of the first key, in the order of the map,
    that equals it once both are put in lower case, whatever keys follow. *)
Theorem getattr_first_folded_match
  (self : Row) (name col : string) (pos : Z) (m1 m2 : dict Z) :
  _column_map self = Some (m1 ++ (col, pos) :: m2) ->
  lowercase_on (_cursor_ref self) = true ->
  dict_get name (m1 ++ (col, pos) :: m2) = None ->
  lower col = lower name ->
  Forall (fun kv => lower (fst kv) <> lower name) m1 ->
  __getattr__ self name = seq_getitem (_values self) pos.
Proof.
  intros Hm Hlc Hexact Hcol Hbefore.
  destruct (getattr_with_column_map self _ name Hm) as (_ & Hscan & _).
  apply Hscan; [exact Hexact | exact Hlc |].
  apply scan_lower_first. exists m1, col, m2. auto.
Qed.

(** X12. With a column map, name-based access ends in [AttributeError]
    exactly when the name is no key and either the cursor is case-sensitive
    or no key equals the name in lower case; the error names the name asked
    for. *)
Theorem attribute_error_iff_no_match (self : Row) (m : dict Z) (name : string) :
  _column_map self = Some m ->
  __getattr__ self name = Raise (no_attribute name) <->
  dict_get name m = None /\
  (lowercase_on (_cursor_ref self) = false \/
   Forall (fun kv => lower (fst kv) <> lower name) m).
Proof.
  intros Hm. unfold __getattr__, exact_match. rewrite Hm.
  destruct (dict_get name m) as [pos|] eqn:E.
  - split.
    + intros H. exfalso. exact (seq_getitem_not_attribute _ _ _ H).
    + intros [H _]. discriminate.
  - destruct (lowercase_on (_cursor_ref self)).
    + destruct (scan_lower (lower name) m) as [pos|] eqn:Es.
      * split.
        -- intros H. exfalso. exact (seq_getitem_not_attribute _ _ _ H).
        -- intros [_ [H|H]]; [discriminate|].
           apply scan_lower_none in H. congruence.
      * split; [|reflexivity]. intros _. split; [reflexivity|].
        right. apply scan_lower_none. exact Es.
    + split; [|reflexivity]. intros _. auto.
Qed.

(** X13. On a case-insensitive cursor the case of the name asked for plays
    no part: two names that are no keys of the column map and are equal in
    lower case give the same value, or both fail. *)
Theorem requested_case_is_irrelevant
  (self : Row) (m : dict Z) (name1 name2 : string) (v : value) :
  _column_map self = Some m ->
  lowercase_on (_cursor_ref self) = true ->
  dict_get name1 m = None ->
  dict_get name2 m = None ->
  lower name1 = lower name2 ->
  __getattr__ self name1 = Return v <-> __getattr__ self name2 = Return v.
Proof.
  intros Hm Hlc H1 H2 Hlow. unfold __getattr__, exact_match.
  rewrite Hm, H1, H2, Hlc, Hlow.
  destruct (scan_lower (lower name2) m); [reflexivity|].
  split; discriminate.
Qed.

(** X14. The positions of the column map are not checked against the
    values: a key mapped to a position outside the value sequence is found,
    and the access fails with [IndexError], not [AttributeError]. *)
Theorem mapped_position_out_of_range
  (self : Row) (m : dict Z) (name : string) (pos : Z) :
  _column_map self = Some m ->
  dict_get name m = Some pos ->
  pos < - Z.of_nat (__len__ self) \/ Z.of_nat (__len__ self) <= pos ->
  __getattr__ self name = Raise (IndexError "index out of range").
Proof.
  intros Hm Hpos Hout. unfold __getattr__, exact_match. rewrite Hm, Hpos.
  unfold seq_getitem, __len__ in *.
  set (n := Z.of_nat (List.length (to_list (_values self)))) in *.
  destruct (pos <? 0) eqn:Eneg.
  - apply Z.ltb_lt in Eneg.
    assert (Hb : ((0 <=? pos + n) && (pos + n <? n))%bool = false).
    { apply andb_false_iff. left. apply Z.leb_gt. lia. }
    rewrite Hb. reflexivity.
  - apply Z.ltb_ge in Eneg.
    assert (Hb : ((0 <=? pos) && (pos <? n))%bool = false).
    { apply andb_false_iff. right. apply Z.ltb_ge. lia. }
    rewrite Hb. reflexivity.
Qed.

(** ** Positional access *)

(** X15. [row[i]] returns a value exactly for [-len <= i < len]: from 0 on
    it is the item at [i] in iteration order, and a negative index counts
    from the end, [row[i]] being [row[i + len]]; any other index ends in
    [IndexError]. *)
Theorem getitem_bounds (self : Row) (i : Z) :
  let n := Z.of_nat (__len__ self) in
  ((exists v, __getitem__ self i = Return v) <-> - n <= i < n) /\
  (0 <= i < n ->
   exists v, nth_error (to_list (_values self)) (Z.to_nat i) = Some v /\
             __getitem__ self i = Return v) /\
  (- n <= i < 0 -> __getitem__ self i = __getitem__ self (i + n)) /\
  (~ (- n <= i < n) -> __getitem__ self i = Raise (IndexError "index out of range")).
Proof.
  intros n. subst n. unfold __getitem__, seq_getitem, __len__.
  set (l := to_list (_values self)). set (n := Z.of_nat (List.length l)).
  assert (Hin : forall j, 0 <= j < n ->
                  exists v, nth_error l (Z.to_nat j) = Some v).
  { intros j Hj. destruct (nth_error l (Z.to_nat j)) as [v|] eqn:E; [eauto|].
    apply nth_error_None in E. subst n. lia. }
  split; [|split; [|split]].
  - split.
    + intros [v Hv]. destruct (i <? 0) eqn:Eneg.
      * apply Z.ltb_lt in Eneg.
        destruct ((0 <=? i + n) && (i + n <? n))%bool eqn:Eb; [|discriminate].
        apply andb_true_iff in Eb. destruct Eb as [E1 E2].
        apply Z.leb_le in E1. lia.
      * apply Z.ltb_ge in Eneg.
        destruct ((0 <=? i) && (i <? n))%bool eqn:Eb; [|discriminate].
        apply andb_true_iff in Eb. destruct Eb as [E1 E2].
        apply Z.ltb_lt in E2. lia.
    + intros Hr. destruct (i <? 0) eqn:Eneg.
      * apply Z.ltb_lt in Eneg.
        assert (Eb : ((0 <=? i + n) && (i + n <? n))%bool = true).
        { apply andb_true_iff. split; [apply Z.leb_le | apply Z.ltb_lt]; lia. }
        rewrite Eb. destruct (Hin (i + n)) as [v Hv]; [lia|].
        rewrite Hv. eauto.
      * apply Z.ltb_ge in Eneg.
        assert (Eb : ((0 <=? i) && (i <? n))%bool = true).
        { apply andb_true_iff. split; [apply Z.leb_le | apply Z.ltb_lt]; lia. }
        rewrite Eb. destruct (Hin i) as [v Hv]; [lia|].
        rewrite Hv. eauto.
  - intros Hr. destruct (Hin i Hr) as [v Hv]. exists v. split; [exact Hv|].
    assert (Eneg : (i <? 0) = false) by (apply Z.ltb_ge; lia).
    assert (Eb : ((0 <=? i) && (i <? n))%bool = true).
    { apply andb_true_iff. split; [apply Z.leb_le | apply Z.ltb_lt]; lia. }
    rewrite Eneg, Eb, Hv. reflexivity.
  - intros Hr.
    assert (Eneg : (i <? 0) = true) by (apply Z.ltb_lt; lia).
    assert (Epos : (i + n <? 0) = false) by (apply Z.ltb_ge; lia).
    rewrite Eneg, Epos. reflexivity.
  - intros Hout. destruct (i <? 0) eqn:Eneg.
    + apply Z.ltb_lt in Eneg.
      assert (Eb : ((0 <=? i + n) && (i + n <? n))%bool = false).
      { apply andb_false_iff. left. apply Z.leb_gt. lia. }
      rewrite Eb. reflexivity.
    + apply Z.ltb_ge in Eneg.
      assert (Eb : ((0 <=? i) && (i <? n))%bool = false).
      { apply andb_false_iff. right. apply Z.ltb_ge. lia. }
      rewrite Eb. reflexivity.
Qed.

(** ** Equality *)

(** X16. Two rows are equal exactly when they hold the same kind of
    sequence, tuple or list, with the same items; the column maps and the
    cursors play no part. *)
Theorem row_equality_is_value_equality (self r : Row) :
  equals self (ORow r) = true <-> _values self = _values r.
Proof.
  unfold equals; simpl. unfold pyseq_eqb.
  destruct (_values self) as [l1|l1], (_values r) as [l2|l2];
    try rewrite items_eqb_eq;
    split; intros H; try discriminate; try congruence.
Qed.

(** ** Output conversion *)

Section Conversion.

Variable SQL_WVARCHAR : Z.

Local Abbreviation _apply_output_converters :=
  (Rows._apply_output_converters SQL_WVARCHAR).
Local Abbreviation outcome := (Rows.outcome SQL_WVARCHAR).
Local Abbreviation convert_loop := (Rows.convert_loop SQL_WVARCHAR).
Local Abbreviation find_converter := (Rows.find_converter SQL_WVARCHAR).

(** X17. Under a description that is not empty the values end up in a list,
    even when nothing is converted: the row then differs from every row that
    holds a tuple, the row it was before included, while it still equals the
    list of its own values. *)
Theorem converted_row_is_list_backed
  (self r : Row) (cursor : Cursor) (d : option descriptor)
  (descs : list (option descriptor)) (items : list value) :
  _values r = PyTuple items ->
  equals (_apply_output_converters self cursor (Some (d :: descs))) (ORow r) = false /\
  equals (_apply_output_converters self cursor (Some (d :: descs)))
         (OList (to_list (_values (_apply_output_converters self cursor
                                     (Some (d :: descs)))))) = true.
Proof.
  intros Hr. split.
  - unfold equals; simpl. rewrite Hr. reflexivity.
  - unfold equals, __eq__. apply items_eqb_refl.
Qed.

Lemma outcome_without_converters (cursor : Cursor) (v : value)
      (desc : option descriptor) :
  (forall sql_type, get_output_converter cursor sql_type = None) ->
  outcome cursor v desc = v.
Proof.
  intros Hnone. unfold Rows.outcome, Rows.find_converter.
  destruct desc as [d|]; [|reflexivity].
  rewrite !Hnone. destruct v; reflexivity.
Qed.

(** X18. When the connection has no output converter at all, conversion
    changes no value, whatever the description. *)
Theorem no_converter_no_change
  (self : Row) (cursor : Cursor) (description : option (list (option descriptor))) :
  (forall sql_type, get_output_converter cursor sql_type = None) ->
  to_list (_values (_apply_output_converters self cursor description))
    = to_list (_values self).
Proof.
  intros Hnone. apply nth_error_ext. intros i.
  rewrite apply_values_nth.
  destruct (nth_error (to_list (_values self)) i) as [v|]; [|reflexivity].
  destruct (nth_error (descriptors description) i) as [desc|]; [|reflexivity].
  rewrite outcome_without_converters by exact Hnone. reflexivity.
Qed.

(** Two converters that agree on everything but [None] and text. *)
Definition agree_off_text (f g : converter) : Prop :=
  forall w, w <> VNone -> (forall s, w <> VStr s) -> f w = g w.

(** Two cursors whose registries know the same types, with converters that
    agree on everything but [None] and text. *)
Definition registries_agree (c1 c2 : Cursor) : Prop :=
  forall sql_type,
    match get_output_converter c1 sql_type, get_output_converter c2 sql_type with
    | Some f, Some g => agree_off_text f g
    | None, None => True
    | _, _ => False
    end.

Lemma outcome_agree (c1 c2 : Cursor) (v : value) (desc : option descriptor) :
  registries_agree c1 c2 -> outcome c1 v desc = outcome c2 v desc.
Proof.
  intros Hag. unfold Rows.outcome, Rows.find_converter.
  destruct desc as [d|]; [|reflexivity].
  pose proof (Hag (type_code d)) as Ht. pose proof (Hag SQL_WVARCHAR) as Hw.
  destruct v as [|n|s|b]; try reflexivity;
    destruct (get_output_converter c1 (type_code d)) as [f|],
             (get_output_converter c2 (type_code d)) as [g|];
    try contradiction; simpl;
    try (rewrite Ht; [reflexivity | discriminate | intros; discriminate]);
    try reflexivity;
    destruct (get_output_converter c1 SQL_WVARCHAR) as [f|],
             (get_output_converter c2 SQL_WVARCHAR) as [g|];
    try contradiction; simpl;
    try (rewrite Hw; [reflexivity | discriminate | intros; discriminate]);
    reflexivity.
Qed.

(** X19. A converter is never called on [None] nor on text, which reaches
    it as UTF-16LE bytes: two registries whose converters differ only on
    [None] and on text convert every row alike. *)
Theorem converters_never_see_text
  (self : Row) (c1 c2 : Cursor) (description : option (list (option descriptor))) :
  registries_agree c1 c2 ->
  to_list (_values (_apply_output_converters self c1 description))
    = to_list (_values (_apply_output_converters self c2 description)) /\
  _apply_output_converters self c1 description
    = _apply_output_converters self c2 description.
Proof.
  intros Hag.
  assert (Hl : to_list (_values (_apply_output_converters self c1 description))
               = to_list (_values (_apply_output_converters self c2 description))).
  { apply nth_error_ext. intros i. rewrite !apply_values_nth.
    destruct (nth_error (to_list (_values self)) i) as [v|]; [|reflexivity].
    destruct (nth_error (descriptors description) i) as [desc|]; [|reflexivity].
    rewrite (outcome_agree c1 c2 v desc Hag). reflexivity. }
  split; [exact Hl|].
  destruct description as [[|d descs]|]; try reflexivity.
  unfold Rows._apply_output_converters in *. cbn [_values to_list] in Hl.
  rewrite Hl. reflexivity.
Qed.

End Conversion.

(** ** The properties at work on small rows *)

(** Two keys that differ by case only, on a case-insensitive cursor. *)
Definition folded_row : Row :=
  __init__ (plain_cursor (Some true)) None (PyTuple [VInt 7; VInt 8])
           (Some [("Name"%string, 0); ("NAME"%string, 1)]).

(** A column mapped to a position the row does not have. *)
Definition short_row : Row :=
  __init__ (plain_cursor None) None (PyTuple [VInt 7]) (Some [("a"%string, 5)]).

(** The code points U+00C9 and U+00E9, capital and small e with acute. *)
Definition E_acute : ascii := ascii_of_nat 201.
Definition e_acute : ascii := ascii_of_nat 233.

(** Two keys outside ASCII that differ by case only: the first is U+00C9
    followed by [a], the second U+00E9 followed by [A]. *)
Definition accented_row : Row :=
  __init__ (plain_cursor (Some true)) None (PyTuple [VInt 7; VInt 8])
           (Some [(String E_acute "a", 0); (String e_acute "A", 1)]).

(** [lower] folds the capital letters above ASCII and leaves the
    multiplication sign and the small letters alone. *)
Example lower_beyond_ascii :
  lower (String E_acute "aZ") = String e_acute "az" /\
  lower (String (ascii_of_nat 222) "") = String (ascii_of_nat 254) "" /\
  lower (String (ascii_of_nat 215) "") = String (ascii_of_nat 215) "" /\
  lower (String (ascii_of_nat 223) "") = String (ascii_of_nat 223) "" /\
  lower (String e_acute "") = String e_acute "".
Proof. repeat split. Qed.

Lemma getattr_first_folded_match_witness :
  __getattr__ accented_row (String e_acute "a")
    = seq_getitem (_values accented_row) 0 /\
  __getattr__ folded_row "name" = seq_getitem (_values folded_row) 0.
Proof.
  split.
  - apply (getattr_first_folded_match accented_row (String e_acute "a")
             (String E_acute "a") 0 [] [(String e_acute "A", 1)]).
    + reflexivity.
    + reflexivity.
    + reflexivity.
    + reflexivity.
    + constructor.
  - apply (getattr_first_folded_match folded_row "name" "Name" 0 []
             [("NAME"%string, 1)]).
    + reflexivity.
    + reflexivity.
    + reflexivity.
    + reflexivity.
    + constructor.
Defined.

Lemma attribute_error_iff_no_match_witness :
  (__getattr__ accented_row (String e_acute "") = Raise (no_attribute (String e_acute ""))
   <->
   dict_get (String e_acute "") [(String E_acute "a", 0); (String e_acute "A", 1)] = None /\
   (lowercase_on (_cursor_ref accented_row) = false \/
    Forall (fun kv : string * Z => lower (fst kv) <> lower (String e_acute ""))
           [(String E_acute "a", 0); (String e_acute "A", 1)])) /\
  (__getattr__ folded_row "zip" = Raise (no_attribute "zip") <->
   dict_get "zip" [("Name"%string, 0); ("NAME"%string, 1)] = None /\
   (lowercase_on (_cursor_ref folded_row) = false \/
    Forall (fun kv : string * Z => lower (fst kv) <> lower "zip")
           [("Name"%string, 0); ("NAME"%string, 1)])).
Proof.
  split.
  - apply (attribute_error_iff_no_match accented_row
             [(String E_acute "a", 0); (String e_acute "A", 1)] (String e_acute "")).
    reflexivity.
  - apply (attribute_error_iff_no_match folded_row
             [("Name"%string, 0); ("NAME"%string, 1)] "zip").
    reflexivity.
Defined.

Lemma requested_case_is_irrelevant_witness :
  (__getattr__ accented_row (String e_acute "a") = Return (VInt 7) <->
   __getattr__ accented_row (String E_acute "A") = Return (VInt 7)) /\
  (__getattr__ folded_row "name" = Return (VInt 7) <->
   __getattr__ folded_row "nAmE" = Return (VInt 7)).
Proof.
  split.
  - apply (requested_case_is_irrelevant accented_row
             [(String E_acute "a", 0); (String e_acute "A", 1)]
             (String e_acute "a") (String E_acute "A") (VInt 7)).
    + reflexivity.
    + reflexivity.
    + reflexivity.
    + reflexivity.
    + reflexivity.
  - apply (requested_case_is_irrelevant folded_row
             [("Name"%string, 0); ("NAME"%string, 1)] "name" "nAmE" (VInt 7)).
    + reflexivity.
    + reflexivity.
    + reflexivity.
    + reflexivity.
    + reflexivity.
Defined.

(** On the accented keys the folded scan stops at the first key. *)
Example accented_row_access :
  __getattr__ accented_row (String e_acute "a") = Return (VInt 7) /\
  __getattr__ accented_row (String E_acute "A") = Return (VInt 7) /\
  __getattr__ accented_row (String e_acute "A") = Return (VInt 8) /\
  __getattr__ (__init__ (plain_cursor (Some true)) None (PyTuple [VInt 7])
                        (Some [(String E_acute "", 0)])) (String e_acute "")
    = Return (VInt 7).
Proof. repeat split. Qed.

Lemma mapped_position_out_of_range_witness :
  __getattr__ short_row "a" = Raise (IndexError "index out of range").
Proof.
  apply (mapped_position_out_of_range short_row [("a"%string, 5)] "a" 5).
  - reflexivity.
  - reflexivity.
  - right. simpl. lia.
Defined.

Lemma getitem_bounds_witness :
  __getitem__ sample_row (-1) = __getitem__ sample_row (-1 + 3) /\
  __getitem__ sample_row 3 = Raise (IndexError "index out of range").
Proof.
  split.
  - destruct (getitem_bounds sample_row (-1)) as (_ & _ & Hneg & _).
    apply Hneg. simpl. lia.
  - destruct (getitem_bounds sample_row 3) as (_ & _ & _ & Hout).
    apply Hout. simpl. lia.
Defined.

Lemma converted_row_is_list_backed_witness :
  equals (_apply_output_converters odbc_wvarchar sample_row (plain_cursor None)
            (Some [None])) (ORow sample_row) = false /\
  equals (_apply_output_converters odbc_wvarchar sample_row (plain_cursor None)
            (Some [None]))
         (OList (to_list (_values (_apply_output_converters odbc_wvarchar sample_row
                                     (plain_cursor None) (Some [None]))))) = true.
Proof.
  apply (converted_row_is_list_backed odbc_wvarchar sample_row sample_row
           (plain_cursor None) None [] [VInt 1; VStr "x"; VNone]).
  reflexivity.
Defined.

Lemma no_converter_no_change_witness :
  to_list (_values (_apply_output_converters odbc_wvarchar sample_row
                      (plain_cursor None) (Some sample_description)))
    = to_list (_values sample_row).
Proof.
  apply (no_converter_no_change odbc_wvarchar sample_row (plain_cursor None)
           (Some sample_description)).
  intros sql_type. reflexivity.
Defined.

(** The registry of [converting_cursor] with a converter that also accepts
    text, which it counts as empty. *)
Definition lenient_byte_count : converter :=
  fun v => match v with
           | VBytes b => Return (VInt (Z.of_nat (List.length b)))
           | VStr _ => Return (VInt 0)
           | _ => Raise ConverterError
           end.

Definition lenient_cursor : Cursor :=
  {| lowercase := None;
     get_output_converter := fun sql_type =>
       if sql_type =? 4 then Some failing_converter
       else if sql_type =? odbc_wvarchar then Some lenient_byte_count
       else None |}.

Lemma converters_never_see_text_witness :
  to_list (_values (_apply_output_converters odbc_wvarchar sample_row
                      converting_cursor (Some sample_description)))
    = to_list (_values (_apply_output_converters odbc_wvarchar sample_row
                          lenient_cursor (Some sample_description))) /\
  _apply_output_converters odbc_wvarchar sample_row converting_cursor
                           (Some sample_description)
    = _apply_output_converters odbc_wvarchar sample_row lenient_cursor
                               (Some sample_description).
Proof.
  apply (converters_never_see_text odbc_wvarchar sample_row converting_cursor
           lenient_cursor (Some sample_description)).
  intros sql_type. simpl.
  destruct (sql_type =? 4); [intros w _ _; reflexivity|].
  destruct (sql_type =? odbc_wvarchar); [|exact I].
  intros w Hnone Htext. destruct w as [|n|s|b]; try reflexivity.
  exfalso. exact (Htext s eq_refl).
Defined.

End RowFacts.
